(** * CPE 2.3 formatted-string unbinding ([cpe_parser.py])

    A shallow embedding of [add_quoting], [unbind_value], [unbind] and
    [process_cpe_str], together with the part of Python's [re.match] that the
    splitting pattern exercises, and the properties of the parser that the
    specification states.

    Python strings are sequences of code points.  They are modelled as lists
    of 8-bit characters, read as the code points U+0000..U+00FF; [isalnum]
    is [str.isalnum] on that range. *)

From Stdlib Require Import Ascii String NArith.
From stdpp Require Import base option list strings.
From Equations Require Import Equations.
From Equations.Prop Require Import Logic.

Local Open Scope char_scope.
Local Open Scope nat_scope.

(** ** Strings *)

Definition str := list ascii.

(** A Python string literal. *)
Definition py (s : string) : str := list_ascii_of_string s.

(** [str.isalnum] on one character: a letter, a decimal, a digit or a
    numeric character.  Below U+0100 these are the ASCII letters and digits,
    the ordinal indicators, the micro sign, the superscripts 1 to 3, the
    vulgar fractions and the Latin-1 letters (all of U+00C0..U+00FF but the
    multiplication and the division sign). *)
Definition isalnum (c : ascii) : bool :=
  let n := N_of_ascii c in
  ((48 <=? n) && (n <=? 57)
   || (65 <=? n) && (n <=? 90)
   || (97 <=? n) && (n <=? 122)
   || (n =? 170) || (n =? 178) || (n =? 179) || (n =? 181)
   || (n =? 185) || (n =? 186)
   || (188 <=? n) && (n <=? 190)
   || (192 <=? n) && (n <=? 214)
   || (216 <=? n) && (n <=? 246)
   || (248 <=? n) && (n <=? 255))%N.

(** ** Exceptions

    Every [raise] of the module is a [ValueError]; the constructors tell the
    messages apart.  [IndexError] is what indexing a string out of range
    raises, [UnpackError] what unpacking a tuple of the wrong size raises. *)
Inductive error : Type :=
  | MalformedInput
      (* "The CPE string has an invalid format. ..." *)
  | MissingAttribute (k : str)
      (* "Empty value is not valid for '{k}'" *)
  | InvalidWildcardPlacement
      (* "Unquoted asterisk must appear at the beggining or end ..." *)
  | InvalidSingleCharWildcardPlacement
      (* "Unquoted question mark must appear at the beginning or end ..." *)
  | IndexError
  | UnpackError.

Inductive res (A : Type) : Type :=
  | Ok (a : A)
  | Raise (e : error).
Arguments Ok {A} a.
Arguments Raise {A} e.

(** An exception aborts what follows: [x ← m; k] runs [k] only when [m]
    returns. *)
#[global] Instance res_bind : MBind res := λ A B f m,
  match m with
  | Ok a => f a
  | Raise e => Raise e
  end.

(** [s[i]] for [0 <= i]. *)
Definition getitem (s : str) (i : nat) : res ascii :=
  match s !! i with
  | Some c => Ok c
  | None => Raise IndexError
  end.

(** [s[i:j]] for [0 <= i <= j]: a slice is clamped to the string and never
    raises. *)
Definition slice (s : str) (i j : nat) : str := take (j - i) (drop i s).

(** ** The escape-sequence encoder: [add_quoting] *)

Record state : Type := State {
  result : str;
  idx : nat;
  embedded : bool
}.

Definition init : state := State [] 0 false.

(** The condition of the [if] under [char == "?"], with Python's
    short-circuit [or] and [and]: [string[idx - 1]] is evaluated only when
    [idx] is not 0. *)
Definition question_mark_ok (string : str) (st : state) : res bool :=
  if idx st =? 0 then Ok true
  else if idx st =? length string - 1 then Ok true
  else
    leading ←
      (if negb (embedded st)
       then c ← getitem string (idx st - 1); Ok (bool_decide (c = "?"))
       else Ok false);
    if (leading : bool) then Ok true
    else
      Ok (embedded st
          && bool_decide (slice string (idx st + 1) (idx st + 1 + 1) = ["?"])).

(** One iteration of the [while] loop.  The first three branches end in
    [continue]; the branch of ["?"] does not, and control goes on to the
    last three statements of the body with the state it has built. *)
Definition loop_body (string : str) (st : state) : res state :=
  char ← getitem string (idx st);
  if isalnum char || bool_decide (char = "_") then
    Ok (State (result st ++ [char]) (idx st + 1) true)
  else if bool_decide (char = "\") then
    Ok (State (result st ++ slice string (idx st) (idx st + 1 + 1))
              (idx st + 2) true)
  else if bool_decide (char = "*") then
    if (idx st =? 0) || (idx st =? length string - 1) then
      Ok (State (result st ++ [char]) (idx st + 1) true)
    else Raise InvalidWildcardPlacement
  else
    st1 ←
      (if bool_decide (char = "?") then
         valid ← question_mark_ok string st;
         if (valid : bool)
         then Ok (State (result st ++ [char]) (idx st + 1) false)
         else Raise InvalidSingleCharWildcardPlacement
       else Ok st);
    Ok (State (result st1 ++ "\" :: [char]) (idx st1 + 1) true).

(** [while idx < len(string): ...; return result]. *)
Equations? while_loop (string : str) (st : state) : res str
  by wf (length string - idx st) lt :=
  while_loop string st with inspect (idx st <? length string) := {
    | exist _ true Hlt with inspect (loop_body string st) := {
        | exist _ (Ok st') Hbody => while_loop string st'
        | exist _ (Raise e) _ => Raise e };
    | exist _ false _ => Ok (result st) }.
Proof.
  (* every branch of the body that returns has moved the cursor forward *)
  apply Nat.ltb_lt in Hlt. revert Hbody. unfold loop_body, mbind, res_bind.
  destruct (getitem string (idx st)) as [char|]; [|done].
  repeat case_match; intros; simplify_eq/=; lia.
Qed.

Definition add_quoting (string : str) : res str := while_loop string init.

(** ** The value classifier: [unbind_value] *)

Definition unbind_value (value : str) : res str :=
  if bool_decide (value = py "*") then Ok (py "ANY")
  else if bool_decide (value = py "-") then Ok (py "NA")
  else add_quoting value.

(** ** The fragment of [re] that the splitting pattern uses

    A backtracking matcher in continuation-passing style: the continuation
    is the rest of the pattern, and a greedy star that made the continuation
    fail is retried with one repetition less. *)

Inductive atom : Type :=
  | Lit (c : ascii)             (* an ordinary character *)
  | Dot                         (* [.]: any character but a newline *)
  | CharSet (cs : list ascii)   (* [[...]] *)
  | NotCharSet (cs : list ascii) (* [[^...]] *).

Inductive regex : Type :=
  | Empty
  | Char (a : atom)
  | Star (a : atom)               (* [a*], greedy *)
  | Group (n : nat) (r : regex)   (* [(r)], the group of index [n] in [groups()] *)
  | Seq (r1 r2 : regex).

Definition newline : ascii := "010".

Definition atom_matches (a : atom) (c : ascii) : bool :=
  match a with
  | Lit c' => bool_decide (c = c')
  | Dot => negb (bool_decide (c = newline))
  | CharSet cs => bool_decide (c ∈ cs)
  | NotCharSet cs => negb (bool_decide (c ∈ cs))
  end.

(** What [groups()] returns: one entry per group, [None] for a group that
    took no part in the match. *)
Abbreviation groups := (list (option str)).

Fixpoint star (a : atom) (s : str) (k : str → option groups) : option groups :=
  match s with
  | c :: s' =>
      if atom_matches a c then
        match star a s' k with
        | Some g => Some g
        | None => k s
        end
      else k s
  | [] => k []
  end.

Fixpoint rmatch (r : regex) (s : str) (g : groups)
    (k : str → groups → option groups) : option groups :=
  match r with
  | Empty => k s g
  | Char a =>
      match s with
      | c :: s' => if atom_matches a c then k s' g else None
      | [] => None
      end
  | Star a => star a s (λ s', k s' g)
  | Group n r =>
      rmatch r s g
        (λ s' g', k s' (<[n := Some (take (length s - length s') s)]> g'))
  | Seq r1 r2 => rmatch r1 s g (λ s' g', rmatch r2 s' g' k)
  end.

(** [re.match(r, s)] for a pattern of [ngroups] groups: the match is anchored
    at the start of [s] only; what is left of [s] when the pattern is through
    is not looked at.  Of the match object only [groups()] is kept. *)
Definition re_match (ngroups : nat) (r : regex) (s : str) : option groups :=
  rmatch r s (replicate ngroups None) (λ _ g, Some g).

(** A run of ordinary characters. *)
Definition lits (s : string) : regex :=
  foldr (λ c r, Seq (Char (Lit c)) r) Empty (py s).

(** A colon and a group that takes every character up to the next colon:
    the starred negated set [[^:]] in parentheses. *)
Definition field (n : nat) : regex :=
  Seq (Char (Lit ":")) (Group n (Star (NotCharSet [":"]))).

(** The pattern of [process_cpe_str]: [cpe:2.3:([aho])] and then ten
    fields.  It is a raw string and the dot between [2] and [3] is not
    escaped, so it is the metacharacter. *)
Definition cpe_2_3_formatted_pattern : regex :=
  foldr Seq Empty
    [ lits "cpe:2"; Char Dot; lits "3:";
      Group 0 (Char (CharSet (py "aho")));
      field 1; field 2; field 3; field 4; field 5;
      field 6; field 7; field 8; field 9; field 10 ].

(** ** The attribute assembler: [unbind] *)

(** A [dict] keeps its keys in insertion order; a value is a string or
    [None]. *)
Abbreviation dict := (list (str * option str)).

(** [d[k] = v]: the value of an existing key is replaced where it stands, a
    new key goes to the end. *)
Fixpoint setitem (k : str) (v : option str) (d : dict) : dict :=
  match d with
  | [] => [(k, v)]
  | (k', v') :: d' =>
      if bool_decide (k' = k) then (k', v) :: d' else (k', v') :: setitem k v d'
  end.

(** [for k, v in result.items(): ...]: [items()] is a view of the dictionary
    that the body assigns to, so the [i]-th pair is read from the current
    [result]; [n] pairs are left to visit. *)
Fixpoint for_items (n i : nat) (result : dict) : res dict :=
  match n with
  | 0 => Ok result
  | S n' =>
      match result !! i with
      | None => Ok result
      | Some (k, None) => Raise (MissingAttribute k)
      | Some (k, Some v) =>
          v' ← unbind_value v;
          for_items n' (S i) (setitem k (Some v') result)
      end
  end.

Definition unbind (match_ : groups) : res dict :=
  match match_ with
  | [part; vendor; product; version; update; edition; language;
     sw_edition; target_sw; target_hw; other] =>
      let result : dict :=
        [ (py "part", part); (py "vendor", vendor); (py "product", product);
          (py "version", version); (py "update", update);
          (py "edition", edition); (py "language", language);
          (py "sw_edition", sw_edition); (py "target_sw", target_sw);
          (py "target_hw", target_hw); (py "other", other) ] in
      for_items (length result) 0 result
  | _ => Raise UnpackError
  end.

(** ** The field splitter: [process_cpe_str] *)

Definition process_cpe_str (cpe_string : str) : res dict :=
  match re_match 11 cpe_2_3_formatted_pattern cpe_string with
  | None => Raise MalformedInput
  | Some match_ => unbind match_
  end.

(** ** The command line: [main] *)

Definition quote : ascii := "034".

(** A digit of [format(n, "04x")]. *)
Definition hex_digit (n : N) : ascii :=
  default "0" (py "0123456789abcdef" !! N.to_nat n).

(** What [json.dumps] writes for one character of a string, with
    [ensure_ascii] left at its default: the escape marker and the double
    quote get an escape marker, the five control characters that have a
    short form get it, and every other character outside the range from the
    space to the tilde is written [\u00xx]. *)
Definition json_escape_char (c : ascii) : str :=
  if bool_decide (c = "\") then py "\\"
  else if bool_decide (c = quote) then ["\"; quote]
  else if bool_decide (c = "008") then py "\b"
  else if bool_decide (c = "012") then py "\f"
  else if bool_decide (c = "010") then py "\n"
  else if bool_decide (c = "013") then py "\r"
  else if bool_decide (c = "009") then py "\t"
  else
    let n := N_of_ascii c in
    if ((n <? 32) || (126 <? n))%N
    then py "\u00" ++ [hex_digit (n / 16); hex_digit (n mod 16)]
    else [c].

(** [sep.join(l)]. *)
Fixpoint join (sep : str) (l : list str) : str :=
  match l with
  | [] => []
  | [x] => x
  | x :: l' => x ++ sep ++ join sep l'
  end.

(** [json.dumps(d, indent=2)] for a dictionary from strings to strings or
    [None], the characters of a string going through [esc]: one pair a
    line, two spaces in, [": "] after the key and a comma after every pair
    but the last. *)
Definition dumps_with (esc : ascii → str) (d : dict) : str :=
  let text (s : str) : str := quote :: concat (esc <$> s) ++ [quote] in
  let value (v : option str) : str :=
    match v with
    | Some s => text s
    | None => py "null"
    end in
  match d with
  | [] => py "{}"
  | _ :: _ =>
      py "{" ++ newline :: py "  "
      ++ join ("," :: newline :: py "  ")
           ((λ kv, text kv.1 ++ py ": " ++ value kv.2) <$> d)
      ++ newline :: py "}"
  end.

Definition json_dumps (d : dict) : str := dumps_with json_escape_char d.

(** [s.startswith(old)]. *)
Fixpoint startswith (old s : str) : bool :=
  match old, s with
  | [], _ => true
  | c :: old', c' :: s' => bool_decide (c' = c) && startswith old' s'
  | _ :: _, [] => false
  end.

(** [s.replace(old, new)] for an [old] that is not empty: the occurrences
    of [old] are taken from left to right and do not overlap.  [skip] is the
    number of characters of [s] that belong to an occurrence already
    replaced. *)
Fixpoint str_replace_from (old new : str) (skip : nat) (s : str) : str :=
  match s with
  | [] => []
  | c :: s' =>
      match skip with
      | S skip' => str_replace_from old new skip' s'
      | 0 =>
          if startswith old s
          then new ++ str_replace_from old new (length old - 1) s'
          else c :: str_replace_from old new 0 s'
      end
  end.

Definition str_replace (old new s : str) : str := str_replace_from old new 0 s.

(** What a run of [main] comes to: the text written to the standard output,
    the [ValueError] of [main] itself, or an exception of [process_cpe_str]
    that nothing catches. *)
Inductive outcome : Type :=
  | Printed (stdout : str)
  | NoArgumentSupplied
  | Uncaught (e : error).

(** [main], given [sys.argv]; [print] ends the text with a newline. *)
Definition main (argv : list str) : outcome :=
  if length argv <? 2 then NoArgumentSupplied
  else
    match argv !! 1 with
    | None => Uncaught IndexError
    | Some cpe_string =>
        match process_cpe_str cpe_string with
        | Raise e => Uncaught e
        | Ok result =>
            Printed
              (str_replace (py "\\") (py "\") (json_dumps result) ++ [newline])
        end
    end.

(** An entry of a result: both the key and the value are strings. *)
Definition item (k v : string) : str * option str := (py k, Some (py v)).

(** * Notions used to state the properties *)

(** ** The scan of [add_quoting] *)

(** The states in which the loop tests its condition. *)
Inductive reaches (string : str) : state → Prop :=
  | reaches_init : reaches string init
  | reaches_next st st' :
      reaches string st →
      idx st < length string →
      loop_body string st = Ok st' →
      reaches string st'.

(** The scan reads position [i]: some iteration starts with the cursor
    there. *)
Definition scanned (string : str) (i : nat) : Prop :=
  ∃ st, reaches string st ∧ idx st = i ∧ i < length string.

(** The state after [n] iterations, when the loop gets that far. *)
Fixpoint iterations (n : nat) (string : str) : option state :=
  match n with
  | 0 => Some init
  | S n' =>
      st ← iterations n' string;
      if idx st <? length string then
        match loop_body string st with
        | Ok st' => Some st'
        | Raise _ => None
        end
      else None
  end.

(** An unescaped ["*"] at an interior position that the scan reads. *)
Definition interior_asterisk (string : str) : Prop :=
  ∃ i, scanned string i ∧ string !! i = Some "*"
       ∧ 0 < i ∧ i < length string - 1.

(** The state of the second scan that stands for [st]: it has written what
    [st] has, and its cursor is at the end of it. *)
Definition rescan (st : state) : state :=
  State (result st) (length (result st)) (embedded st).

(** The characters that [add_quoting] copies as they are: [char.isalnum()
    or char == "_"]. *)
Definition unreserved (c : ascii) : bool :=
  isalnum c || bool_decide (c = "_").

(** What the last three statements of the loop write for a character. *)
Definition escape_char (c : ascii) : str :=
  if unreserved c then [c] else ["\"; c].

(** A character the loop has a branch of its own for, apart from the
    unreserved ones. *)
Definition special (c : ascii) : Prop := c = "\" ∨ c = "*" ∨ c = "?".

(** ** A left-to-right scan for the splitting pattern *)

(** The characters of [s] up to its first colon. *)
Fixpoint segment (s : str) : str :=
  match s with
  | c :: s' => if bool_decide (c = ":") then [] else c :: segment s'
  | [] => []
  end.

(** What is left of [s] from its first colon on; nothing, when [s] has no
    colon. *)
Fixpoint after_segment (s : str) : str :=
  match s with
  | c :: s' => if bool_decide (c = ":") then s else after_segment s'
  | [] => []
  end.

(** [s] without the prefix [l], when it has that prefix. *)
Fixpoint strip (l s : str) : option str :=
  match l, s with
  | [], _ => Some s
  | c :: l', c' :: s' => if bool_decide (c' = c) then strip l' s' else None
  | _ :: _, [] => None
  end.

(** [n] times a colon and a segment. *)
Fixpoint fields (n : nat) (s : str) : option (list str) :=
  match n, s with
  | 0, _ => Some []
  | S n', c :: s' =>
      if bool_decide (c = ":")
      then (segment s' ::.) <$> fields n' (after_segment s')
      else None
  | S _, [] => None
  end.

(** The eleven segments of a string that the pattern matches, read in one
    pass: [cpe:2], a character that is not a newline, [3:], the part
    indicator and ten fields. *)
Definition split_cpe (s : str) : option (list str) :=
  s1 ← strip (py "cpe:2") s;
  match s1 with
  | d :: s2 =>
      if bool_decide (d = newline) then None
      else
        s3 ← strip (py "3:") s2;
        match s3 with
        | p :: s4 =>
            if bool_decide (p ∈ py "aho")
            then ([p] ::.) <$> fields 10 s4
            else None
        | [] => None
        end
  | [] => None
  end.

(** The groups of a run of fields, put where [groups()] has them. *)
Definition set_groups (ns : list nat) (fs : list str) (g : groups) : groups :=
  foldl (λ g nf, <[nf.1 := Some nf.2]> g) g (zip ns fs).

(** [s.split(":")]. *)
Fixpoint split_colon (s : str) : list str :=
  match s with
  | [] => [[]]
  | c :: s' =>
      if bool_decide (c = ":") then [] :: split_colon s'
      else
        match split_colon s' with
        | x :: xs => (c :: x) :: xs
        | [] => [[c]]
        end
  end.

(** ** The loop of [unbind] as a map *)

(** The eleven keys, in the order of the dictionary display of [unbind]. *)
Definition attribute_names : list str :=
  [ py "part"; py "vendor"; py "product"; py "version"; py "update";
    py "edition"; py "language"; py "sw_edition"; py "target_sw";
    py "target_hw"; py "other" ].

(** [unbind_value] on every segment in turn, up to the first exception. *)
Fixpoint unbind_values (l : list str) : res (list str) :=
  match l with
  | [] => Ok []
  | v :: l' =>
      v' ← unbind_value v;
      vs ← unbind_values l';
      Ok (v' :: vs)
  end.

(** The loop of [unbind] over pairs whose value may be [None]: the first
    such pair raises, with its key. *)
Fixpoint visit_items (items : dict) : res dict :=
  match items with
  | [] => Ok []
  | (k, None) :: _ => Raise (MissingAttribute k)
  | (k, Some v) :: items' =>
      v' ← unbind_value v;
      rest ← visit_items items';
      Ok ((k, Some v') :: rest)
  end.

(** ** What [main] prints *)

(** A character that [json.dumps] writes as it is, or the escape marker:
    from the space to the tilde, the double quote apart. *)
Definition printable (c : ascii) : bool :=
  let n := N_of_ascii c in
  ((32 <=? n) && (n <=? 126))%N && negb (bool_decide (c = quote)).

(** The record laid out as [json.dumps] lays it out, every character of a
    key or of a value written as it is. *)
Definition layout (d : dict) : str := dumps_with (λ c, [c]) d.

(** A text with every escape marker written twice. *)
Definition doubled (s : str) : str :=
  concat ((λ c, if bool_decide (c = "\") then py "\\" else [c]) <$> s).

(** The characters of the keys and of the values of a dictionary. *)
Definition printable_dict (d : dict) : Prop :=
  Forall (λ kv, Forall (λ c, printable c = true) kv.1
                ∧ ∀ v, kv.2 = Some v → Forall (λ c, printable c = true) v) d.

(** * Properties *)

(** ** The scan of [add_quoting] *)

(** Every iteration that does not raise moves the cursor forward. *)
Lemma loop_body_advances string st st' :
  loop_body string st = Ok st' → idx st < idx st'.
Proof.
  unfold loop_body, mbind, res_bind.
  destruct (getitem string (idx st)) as [char|]; [|done].
  repeat case_match; intros; simplify_eq/=; lia.
Qed.

(** The loop, one iteration unrolled. *)
Lemma while_loop_eq string st :
  while_loop string st =
  if idx st <? length string
  then st' ← loop_body string st; while_loop string st'
  else Ok (result st).
Proof.
  funelim (while_loop string st);
    repeat match goal with
    | H : (idx _ <? _) = _ |- _ => rewrite H
    | H : loop_body _ _ = _ |- _ => unfold mbind, res_bind; rewrite H
    end; done.
Qed.

Lemma iterations_reaches n string st :
  iterations n string = Some st → reaches string st.
Proof.
  revert st. induction n as [|n IH]; intros st; simpl.
  - intros [= <-]. constructor.
  - destruct (iterations n string) as [st0|]; [|done]. simpl.
    destruct (idx st0 <? length string) eqn:Hlt; [|done].
    destruct (loop_body string st0) as [st'|] eqn:Hbody; [|done].
    intros [= <-]. apply Nat.ltb_lt in Hlt.
    eapply reaches_next; [by apply IH | done | done].
Qed.

Lemma reaches_while_loop string st :
  reaches string st → add_quoting string = while_loop string st.
Proof.
  induction 1 as [|st st' _ IH Hlt Hbody]; [done|].
  rewrite IH, while_loop_eq.
  apply Nat.ltb_lt in Hlt. rewrite Hlt.
  unfold mbind, res_bind. by rewrite Hbody.
Qed.

Lemma getitem_lookup (s : str) i c : s !! i = Some c → getitem s i = Ok c.
Proof. unfold getitem. by intros ->. Qed.

Lemma getitem_lt (s : str) i :
  i < length s → ∃ c, getitem s i = Ok c ∧ s !! i = Some c.
Proof.
  intros [c Hc]%lookup_lt_is_Some. exists c. by rewrite (getitem_lookup _ _ _ Hc).
Qed.

Lemma question_mark_ok_returns string st :
  idx st < length string → ∃ b, question_mark_ok string st = Ok b.
Proof.
  intros Hlt. unfold question_mark_ok.
  destruct (idx st =? 0) eqn:H0; [by eexists|].
  destruct (idx st =? length string - 1); [by eexists|].
  destruct (embedded st); simpl; [by eexists|].
  destruct (getitem_lt string (idx st - 1)) as (c & -> & _); [lia|].
  simpl. destruct (bool_decide (c = "?")); by eexists.
Qed.

(** The only exceptions of an iteration are the two placement errors: no
    index is out of range while the cursor is inside the string. *)
Lemma loop_body_raises string st e :
  idx st < length string →
  loop_body string st = Raise e →
  e = InvalidWildcardPlacement ∨ e = InvalidSingleCharWildcardPlacement.
Proof.
  intros Hlt. unfold loop_body.
  destruct (getitem_lt string (idx st) Hlt) as (char & -> & _). simpl.
  destruct (question_mark_ok_returns string st Hlt) as [b ->]. simpl.
  repeat case_match; intros; simplify_eq/=; auto.
Qed.

Lemma while_loop_raises string st e :
  while_loop string st = Raise e →
  e = InvalidWildcardPlacement ∨ e = InvalidSingleCharWildcardPlacement.
Proof.
  funelim (while_loop string st); [done | eauto |].
  intros [= ->].
  match goal with
  | H : (idx _ <? _) = true, H' : loop_body _ _ = Raise _ |- _ =>
      exact (loop_body_raises _ _ _ (proj1 (Nat.ltb_lt _ _) H) H')
  end.
Qed.

Lemma add_quoting_raises string e :
  add_quoting string = Raise e →
  e = InvalidWildcardPlacement ∨ e = InvalidSingleCharWildcardPlacement.
Proof. apply while_loop_raises. Qed.

(** An escape marker and the character after it are copied as they are,
    whatever that character is. *)
Lemma loop_body_escaped_pair string st c :
  string !! idx st = Some "\" →
  string !! (idx st + 1) = Some c →
  loop_body string st =
    Ok (State (result st ++ ["\"; c]) (idx st + 2) true).
Proof.
  intros Hesc Hc. unfold loop_body.
  rewrite (getitem_lookup _ _ _ Hesc). simpl.
  unfold slice. replace (idx st + 1 + 1 - idx st) with 2 by lia.
  rewrite (drop_S _ _ _ Hesc). rewrite Nat.add_1_r in Hc.
  by rewrite (drop_S _ _ _ Hc).
Qed.

(** What the loop does when the cursor is on an unescaped ["?"] that the
    placement test accepts: the iteration does not stop after the three
    statements of the accepting branch, it also runs the three statements
    that escape a character.  The ["?"] is written twice, the second time
    escaped, the cursor moves by two and the flag ends up set. *)
Lemma loop_body_question_mark string st :
  string !! idx st = Some "?" →
  question_mark_ok string st = Ok true →
  loop_body string st =
    Ok (State (result st ++ py "?\?") (idx st + 2) true).
Proof.
  intros Hc Hok. unfold loop_body.
  rewrite (getitem_lookup _ _ _ Hc). simpl. rewrite Hok. simpl.
  by rewrite <-(assoc_L (++)), <-Nat.add_assoc.
Qed.

(** C1 (the code departs from the claim).  On the component ["?"] the only
    position holds a valid unescaped ["?"]; the iteration there writes
    [?\?], not ["?"] once, moves the cursor from 0 to 2, not to 1, and
    leaves the embedded flag set, not cleared; [add_quoting] returns
    [?\?].  On ["?a"] the character after the ["?"] is skipped. *)
Theorem add_quoting_question_mark_written_twice :
  question_mark_ok (py "?") init = Ok true
  ∧ loop_body (py "?") init = Ok (State (py "?\?") 2 true)
  ∧ add_quoting (py "?") = Ok (py "?\?")
  ∧ add_quoting (py "?a") = Ok (py "?\?").
Proof. repeat split; reflexivity. Qed.

(** C4 (the code departs from the claim).  [add_quoting] succeeds on ["?"]
    with the output [?\?]; applied to that output it returns [?\??\?], which
    is a different string. *)
Theorem add_quoting_not_idempotent_on_question_mark :
  add_quoting (py "?") = Ok (py "?\?")
  ∧ add_quoting (py "?\?") = Ok (py "?\??\?")
  ∧ py "?\??\?" ≠ py "?\?".
Proof. split; [reflexivity|]. split; [reflexivity | discriminate]. Qed.

(** *** Encoding an output again

    Where the scan meets no unescaped ["?"], [add_quoting] leaves its own
    output as it is: the second scan goes through the output unit by unit,
    an escaped pair at a time. *)

Lemma loop_body_result string st st' :
  loop_body string st = Ok st' → ∃ u, result st' = result st ++ u.
Proof.
  unfold loop_body, mbind, res_bind.
  destruct (getitem string (idx st)) as [char|]; [|done].
  repeat case_match; intros; simplify_eq/=;
    try (by eexists); rewrite <-(assoc_L (++)); by eexists.
Qed.

Lemma while_loop_result string r :
  ∀ n st, length string - idx st = n →
    while_loop string st = Ok r → ∃ t, r = result st ++ t.
Proof.
  induction n as [n IH] using lt_wf_ind. intros st Hn.
  rewrite while_loop_eq.
  destruct (idx st <? length string) eqn:Hlt.
  - apply Nat.ltb_lt in Hlt.
    destruct (loop_body string st) as [st'|] eqn:Hbody; [|done]. simpl.
    intros Hr. pose proof (loop_body_advances _ _ _ Hbody).
    destruct (loop_body_result _ _ _ Hbody) as [u Hu].
    destruct (IH (length string - idx st')) with (st := st') as [t ->];
      [lia | done | done |].
    exists (u ++ t). by rewrite Hu, <-(assoc_L (++)).
  - intros [= <-]. exists []. by rewrite app_nil_r.
Qed.

Lemma while_loop_past_end string st :
  length string ≤ idx st → while_loop string st = Ok (result st).
Proof.
  intros H. rewrite while_loop_eq. by rewrite (proj2 (Nat.ltb_ge _ _)).
Qed.

Lemma reaches_idx_0 string st : reaches string st → idx st = 0 → st = init.
Proof.
  destruct 1 as [|st st' _ _ Hbody]; [done|].
  apply loop_body_advances in Hbody. lia.
Qed.

Lemma slice_pair (pre : str) c1 c2 t :
  slice (pre ++ c1 :: c2 :: t) (length pre) (length pre + 1 + 1) = [c1; c2].
Proof.
  unfold slice. rewrite drop_app_length.
  by replace (length pre + 1 + 1 - length pre) with 2 by lia.
Qed.

Lemma rescan_pair (pre : str) c t b :
  loop_body (pre ++ "\" :: c :: t) (State pre (length pre) b) =
  Ok (State (pre ++ ["\"; c]) (length pre + 2) true).
Proof.
  unfold loop_body. cbn [idx result].
  rewrite (getitem_lookup _ _ "\") by by apply list_lookup_middle.
  simpl. by rewrite slice_pair.
Qed.

(** Goals on the length of what has been written. *)
Ltac length_lia := simpl; rewrite ?length_app; simpl; lia.

Section rescan.
Variable string : str.
Hypothesis no_question_mark : ∀ i, scanned string i → string !! i ≠ Some "?".

Lemma while_loop_rescan r :
  ∀ n st, length string - idx st = n →
    reaches string st →
    while_loop string st = Ok r →
    while_loop r (rescan st) = Ok r.
Proof.
  induction n as [n IH] using lt_wf_ind. intros st Hn Hst.
  rewrite while_loop_eq.
  destruct (idx st <? length string) eqn:Hlt; cycle 1.
  { intros [= <-]. by apply (while_loop_past_end _ (rescan st)). }
  apply Nat.ltb_lt in Hlt.
  destruct (loop_body string st) as [st'|] eqn:Hbody; [|done].
  cbn [mbind res_bind]. intros Hr.
  pose proof (loop_body_advances _ _ _ Hbody) as Hadv.
  assert (Hst' : reaches string st') by by eapply reaches_next.
  assert (IH' : while_loop r (rescan st') = Ok r).
  { apply (IH (length string - idx st')); [lia | done | done | done]. }
  destruct (while_loop_result _ _ _ _ eq_refl Hr) as [t Ht].
  assert (Hstep : ∀ st2, loop_body r (rescan st) = Ok st2 →
            idx (rescan st) < length r →
            while_loop r st2 = Ok r →
            while_loop r (rescan st) = Ok r).
  { intros st2 H2 Hlt2 Hr2. rewrite while_loop_eq.
    apply Nat.ltb_lt in Hlt2 as ->. by rewrite H2. }
  destruct (getitem_lt string (idx st) Hlt) as (char & Hget & Hchar).
  assert (Hnq : char ≠ "?").
  { intros ->. by apply (no_question_mark (idx st)); [exists st|]. }
  unfold loop_body in Hbody. rewrite Hget in Hbody.
  cbn [mbind res_bind] in Hbody.
  destruct (isalnum char || bool_decide (char = "_")) eqn:Halnum.
  { (* an unreserved character *)
    injection Hbody as <-. cbn [result] in Ht. subst r.
    rewrite <-(assoc_L (++)) in *. cbn [app] in *.
    apply (Hstep (rescan (State (result st ++ [char]) (idx st + 1) true)));
      [|length_lia|done].
    unfold loop_body, rescan. cbn [idx result embedded].
    rewrite (getitem_lookup _ _ char) by by apply list_lookup_middle.
    cbn [mbind res_bind]. rewrite Halnum.
    by rewrite length_app. }
  case_bool_decide as Hesc.
  { (* the escape marker *)
    subst char. injection Hbody as <-. cbn [result idx] in *.
    unfold slice in *.
    replace (idx st + 1 + 1 - idx st) with 2 in * by lia.
    rewrite (drop_S _ _ _ Hchar) in *. cbn [take] in *.
    destruct (drop (S (idx st)) string) as [|c rest] eqn:Hrest.
    - (* it is the last character: the output ends here *)
      apply (f_equal length) in Hrest. rewrite length_drop in Hrest.
      simpl in Hrest.
      rewrite while_loop_past_end in Hr by (simpl; lia).
      injection Hr as <-. cbn [result take].
      apply (Hstep (State (result st ++ ["\"]) (length (result st) + 2) true));
        [|length_lia|].
      + unfold loop_body, rescan. cbn [idx result embedded].
        rewrite (getitem_lookup _ _ "\") by by apply list_lookup_middle.
        simpl. unfold slice. rewrite drop_app_length.
        by replace (length (result st) + 1 + 1 - length (result st)) with 2 by lia.
      + apply while_loop_past_end. length_lia.
    - subst r. rewrite <-(assoc_L (++)) in *. cbn [app take] in *.
      apply (Hstep (rescan (State (result st ++ ["\"; c]) (idx st + 2) true)));
        [|length_lia|].
      + unfold rescan at 1. rewrite rescan_pair.
        unfold rescan. cbn [result embedded]. by rewrite length_app.
      + exact IH'. }
  case_bool_decide as Hast.
  { (* an asterisk at the first or at the last position *)
    subst char.
    destruct ((idx st =? 0) || (idx st =? length string - 1)) eqn:Hpos; [|done].
    injection Hbody as <-. cbn [result idx] in *.
    subst r. rewrite <-(assoc_L (++)) in *. cbn [app] in *.
    apply (Hstep (rescan (State (result st ++ ["*"]) (idx st + 1) true)));
      [|length_lia|done].
    unfold loop_body, rescan. cbn [idx result embedded].
    rewrite (getitem_lookup _ _ "*") by by apply list_lookup_middle.
    simpl.
    assert (Hpos2 : (length (result st) =? 0)
              || (length (result st) =?
                  length (result st ++ "*" :: t) - 1) = true).
    { apply orb_true_iff in Hpos as [H0%Nat.eqb_eq | Hl%Nat.eqb_eq].
      - rewrite (reaches_idx_0 _ _ Hst H0). done.
      - rewrite while_loop_past_end in Hr by (simpl; lia).
        injection Hr as Hr. apply app_inv_head in Hr.
        destruct t; [|by destruct t].
        apply orb_true_iff. right. apply Nat.eqb_eq.
        rewrite length_app. simpl. lia. }
    rewrite Hpos2. by rewrite length_app. }
  (* any other character is written escaped, and read again as a pair *)
  rewrite bool_decide_eq_false_2 in Hbody by done.
  cbn [mbind res_bind] in Hbody. injection Hbody as <-.
  cbn [result idx] in *. subst r.
  rewrite <-(assoc_L (++)) in *. cbn [app] in *.
  apply (Hstep (rescan (State (result st ++ ["\"; char]) (idx st + 1) true)));
    [|length_lia|].
  - unfold rescan at 1. rewrite rescan_pair.
    unfold rescan. cbn [result embedded]. by rewrite length_app.
  - exact IH'.
Qed.

(** X9.  Where the scan meets no unescaped question mark, [add_quoting]
    returns its own output unchanged when it is applied to it. *)
Lemma add_quoting_idempotent_without_question_mark r :
  add_quoting string = Ok r → add_quoting r = Ok r.
Proof.
  intros Hr.
  apply (while_loop_rescan r _ init eq_refl); [constructor | done].
Qed.

End rescan.

Lemma add_quoting_interior_asterisk string :
  interior_asterisk string →
  add_quoting string = Raise InvalidWildcardPlacement.
Proof.
  intros (i & (st & Hst & <- & Hlt) & Hc & H0 & Hlast).
  rewrite (reaches_while_loop _ _ Hst), while_loop_eq.
  apply Nat.ltb_lt in Hlt as ->.
  unfold loop_body. rewrite (getitem_lookup _ _ _ Hc). simpl.
  destruct (idx st =? 0) eqn:E0; [apply Nat.eqb_eq in E0; lia|].
  destruct (idx st =? length string - 1) eqn:E1; [apply Nat.eqb_eq in E1; lia|].
  done.
Qed.

(** C6.  [unbind_value] returns ["ANY"] for ["*"], ["NA"] for ["-"], and
    what [add_quoting] returns (or raises) for every other segment, the
    empty one included, for which that is the empty string. *)
Theorem unbind_value_cases :
  unbind_value (py "*") = Ok (py "ANY")
  ∧ unbind_value (py "-") = Ok (py "NA")
  ∧ (∀ value, value ≠ py "*" → value ≠ py "-" →
       unbind_value value = add_quoting value)
  ∧ unbind_value [] = add_quoting []
  ∧ add_quoting [] = Ok [].
Proof.
  split; [reflexivity|]. split; [reflexivity|]. split; [|split; reflexivity].
  intros value H1 H2. unfold unbind_value.
  by rewrite !bool_decide_eq_false_2.
Qed.

Lemma unbind_value_cases_witness :
  unbind_value (py "8.4.2-1") = add_quoting (py "8.4.2-1").
Proof.
  apply (proj1 (proj2 (proj2 unbind_value_cases))); discriminate.
Defined.

(** C10, as the claim states it, fails: the last character of [a*b\] is an
    escape marker that nothing escapes and nothing follows, and
    [add_quoting] raises, at the asterisk, before the scan gets to it. *)
Lemma add_quoting_trailing_escape_not_reached :
  last (py "a*b\") = Some "\"
  ∧ py "a*b\" !! 2 = Some "b"
  ∧ add_quoting (py "a*b\") = Raise InvalidWildcardPlacement.
Proof. repeat split; reflexivity. Qed.

(** After an accepted ["?"] the cursor moves by two, and a marker that comes
    next, last in the component, is not read at all. *)
Example add_quoting_trailing_escape_skipped :
  add_quoting (py "?\") = Ok (py "?\?").
Proof. reflexivity. Qed.

(** C10, amended.  When the scan reads the last position of a component and
    finds the escape marker there, the iteration raises nothing: the slice
    that would hold the pair is cut at the end of the string, so the marker
    alone is appended, the cursor goes one past the length, and
    [add_quoting] returns what had been built followed by the single
    marker. *)
Theorem add_quoting_trailing_escape string st :
  reaches string st →
  idx st = length string - 1 →
  string !! idx st = Some "\" →
  loop_body string st =
    Ok (State (result st ++ ["\"]) (length string + 1) true)
  ∧ add_quoting string = Ok (result st ++ ["\"]).
Proof.
  intros Hst Hidx Hc.
  assert (Hlt : idx st < length string) by by eapply lookup_lt_Some.
  assert (Hbody : loop_body string st =
            Ok (State (result st ++ ["\"]) (length string + 1) true)).
  { unfold loop_body. rewrite (getitem_lookup _ _ _ Hc). simpl.
    unfold slice. replace (idx st + 1 + 1 - idx st) with 2 by lia.
    rewrite (drop_S _ _ _ Hc), drop_ge by lia.
    simpl. by replace (idx st + 2) with (length string + 1) by lia. }
  split; [done|].
  rewrite (reaches_while_loop _ _ Hst), while_loop_eq.
  apply Nat.ltb_lt in Hlt as ->. rewrite Hbody. simpl.
  rewrite while_loop_eq. simpl.
  by rewrite (proj2 (Nat.ltb_ge _ _)) by lia.
Qed.

(** The instance of the claim's example: ["a\"] is returned as it is. *)
Lemma add_quoting_trailing_escape_witness :
  add_quoting (py "a\") = Ok (py "a\").
Proof.
  refine (proj2 (add_quoting_trailing_escape (py "a\") (State (py "a") 1 true) _ _ _)).
  - by apply (iterations_reaches 1).
  - reflexivity.
  - reflexivity.
Defined.

(** ** The matcher on the splitting pattern

    On this pattern backtracking never finds a second way to match: a field
    is followed by a colon or by nothing, so [re.match] is a scan from left
    to right, [split_cpe]. *)

Lemma segment_after_segment s : segment s ++ after_segment s = s.
Proof. induction s as [|c s IH]; simpl; [done|]. case_bool_decide; simpl; by f_equal. Qed.

Lemma take_segment s :
  take (length s - length (after_segment s)) s = segment s.
Proof.
  rewrite <-(segment_after_segment s) at 1 3.
  rewrite length_app, Nat.add_sub. by rewrite take_app_length.
Qed.

Lemma not_colon_matches c :
  atom_matches (NotCharSet [":"]) c = negb (bool_decide (c = ":")).
Proof.
  simpl. f_equal. apply bool_decide_ext, list_elem_of_singleton.
Qed.

(** A greedy star of [[^:]] stops at the first colon or at the end of the
    string, when the rest of the pattern asks for a colon next or cannot
    fail. *)
Lemma star_not_colon s (k : str → option groups) :
  (∀ c s', c ≠ ":" → k (c :: s') = None) ∨ (∀ s', is_Some (k s')) →
  star (NotCharSet [":"]) s k = k (after_segment s).
Proof.
  intros Hk. induction s as [|c s IH]; [done|].
  cbn [star after_segment]. rewrite not_colon_matches.
  case_bool_decide as Hc; simpl; [done|].
  rewrite IH. destruct (k (after_segment s)) eqn:E; [done|].
  destruct Hk as [Hk|Hk]; [by apply Hk|].
  destruct (Hk (after_segment s)) as [? ?]; congruence.
Qed.

Lemma rmatch_lits (l : str) s g k :
  rmatch (foldr (λ c r, Seq (Char (Lit c)) r) Empty l) s g k =
  match strip l s with
  | Some s' => k s' g
  | None => None
  end.
Proof.
  revert s. induction l as [|c l IH]; intros s; [done|].
  destruct s as [|c' s]; [done|]. simpl.
  case_bool_decide; [apply IH | done].
Qed.

Lemma fields_length n s fs : fields n s = Some fs → length fs = n.
Proof.
  revert s fs. induction n as [|n IH]; intros s fs; simpl.
  - by intros [= <-].
  - destruct s as [|c s]; [done|]. case_bool_decide; [|done].
    destruct (fields n (after_segment s)) as [fs'|] eqn:E; [|done].
    intros [= <-]. simpl. f_equal. eauto.
Qed.

Lemma rmatch_fields ns s g :
  rmatch (foldr (λ n r, Seq (field n) r) Empty ns) s g (λ _ g', Some g') =
  (λ fs, set_groups ns fs g) <$> fields (length ns) s.
Proof.
  revert s g. induction ns as [|n ns IH]; intros s g; [done|].
  destruct s as [|c s]; [done|].
  cbn [foldr length fields rmatch field atom_matches].
  case_bool_decide as Hc; [|done].
  rewrite star_not_colon.
  - rewrite take_segment, IH.
    destruct (fields (length ns) (after_segment s)); done.
  - destruct ns as [|n' ns]; [right; by eexists|].
    left. intros c' s' Hc'. cbn [foldr rmatch field atom_matches].
    by rewrite bool_decide_eq_false_2.
Qed.

Lemma rmatch_seq_char a r s g k :
  rmatch (Seq (Char a) r) s g k =
  match s with
  | c :: s' => if atom_matches a c then rmatch r s' g k else None
  | [] => None
  end.
Proof. by destruct s. Qed.

Lemma rmatch_seq_group_char n a r s g k :
  rmatch (Seq (Group n (Char a)) r) s g k =
  match s with
  | c :: s' =>
      if atom_matches a c then rmatch r s' (<[n := Some [c]]> g) k else None
  | [] => None
  end.
Proof.
  destruct s as [|c s]; [done|]. cbn [rmatch].
  destruct (atom_matches a c); [|done].
  by replace (length (c :: s) - length s) with 1 by (simpl; lia).
Qed.

(** [re.match] with the pattern of [process_cpe_str] is the scan, and every
    group of a match holds a string. *)
Lemma re_match_split_cpe s :
  re_match 11 cpe_2_3_formatted_pattern s =
  (λ fs : list str, Some <$> fs) <$> split_cpe s.
Proof.
  unfold re_match, cpe_2_3_formatted_pattern, split_cpe, lits.
  cbn [foldr]. change (rmatch (Seq ?r1 ?r2) ?s ?g ?k) with
    (rmatch r1 s g (λ s' g', rmatch r2 s' g' k)).
  rewrite rmatch_lits.
  destruct (strip (py "cpe:2") s) as [s1|]; [|done].
  rewrite rmatch_seq_char. cbn [mbind option_bind atom_matches].
  destruct s1 as [|d s2]; [done|].
  destruct (bool_decide (d = newline)); [reflexivity|]. cbn [negb].
  change (rmatch (Seq ?r1 ?r2) ?s ?g ?k) with
    (rmatch r1 s g (λ s' g', rmatch r2 s' g' k)).
  rewrite rmatch_lits.
  destruct (strip (py "3:") s2) as [s3|]; [|done].
  rewrite rmatch_seq_group_char. cbn [mbind option_bind atom_matches].
  destruct s3 as [|p s4]; [done|].
  destruct (decide (p ∈ py "aho")) as [Hp|Hp];
    [rewrite !(bool_decide_eq_true_2 _ Hp)
    |by rewrite !(bool_decide_eq_false_2 _ Hp)].
  pose proof (rmatch_fields [1; 2; 3; 4; 5; 6; 7; 8; 9; 10] s4
                (<[0:=Some [p]]> (replicate 11 None))) as Hfields.
  etrans; [exact Hfields|]. clear Hfields. cbn [length].
  destruct (fields 10 s4) as [fs|] eqn:E; [|reflexivity].
  apply fields_length in E.
  do 10 (destruct fs as [|? fs]; [done|]).
  destruct fs; [|done].
  reflexivity.
Qed.

(** ** The loop of [unbind] *)

Lemma setitem_app (pre : dict) k v v' (post : dict) :
  k ∉ pre.*1 → setitem k v' (pre ++ (k, v) :: post) = pre ++ (k, v') :: post.
Proof.
  induction pre as [|[k0 v0] pre IH]; simpl; intros Hk.
  - by rewrite bool_decide_eq_true_2.
  - apply not_elem_of_cons in Hk as [Hne Hk].
    rewrite bool_decide_eq_false_2 by done. by rewrite IH.
Qed.

(** Assigning to the key that is being visited changes neither the order
    nor the pairs still to come: the loop is [unbind_values] over the values
    that the dictionary had at the start. *)
Lemma for_items_unbind_values (pre : dict) (post : list (str * str)) :
  NoDup (pre.*1 ++ post.*1) →
  for_items (length post) (length pre)
    (pre ++ ((λ kv, (kv.1, Some kv.2)) <$> post)) =
  vs ← unbind_values (post.*2);
  Ok (pre ++ zip (post.*1) (Some <$> vs)).
Proof.
  revert pre. induction post as [|[k v] post IH]; intros pre Hnd.
  - simpl. by rewrite app_nil_r.
  - cbn [length fmap list_fmap for_items fst snd unbind_values].
    rewrite list_lookup_middle by done. cbn [fst snd].
    destruct (unbind_value v) as [v'|e] eqn:Ev; [|done].
    cbn [mbind res_bind].
    rewrite setitem_app.
    2:{ apply NoDup_app in Hnd as (_ & Hnd & _). intros Hin.
        apply (Hnd _ Hin). simpl. left. }
    specialize (IH (pre ++ [(k, Some v')])).
    rewrite length_app, Nat.add_1_r, <-(assoc_L (++)) in IH.
    cbn [app] in IH. rewrite IH.
    2:{ rewrite fmap_app, <-(assoc_L (++)). done. }
    destruct (unbind_values post.*2) as [vs|e]; [|done].
    simpl. by rewrite <-(assoc_L (++)).
Qed.

Lemma unbind_unbind_values (fs : list str) :
  length fs = 11 →
  unbind (Some <$> fs) =
  vs ← unbind_values fs; Ok (zip attribute_names (Some <$> vs)).
Proof.
  intros Hlen.
  do 11 (destruct fs as [|? fs]; [done|]). destruct fs; [|done].
  cbn [fmap list_fmap unbind].
  match goal with
  | |- for_items _ _ ?d = vs ← unbind_values ?l; _ =>
      pose proof (for_items_unbind_values [] (zip attribute_names l)) as H
  end.
  cbn [zip zip_with attribute_names fmap list_fmap fst snd app length] in H.
  apply H. apply (bool_decide_unpack _). vm_compute. exact I.
Qed.

Lemma split_cpe_length s fs : split_cpe s = Some fs → length fs = 11.
Proof.
  unfold split_cpe. intros H.
  repeat (simplify_option_eq || case_match);
    try (simpl; f_equal; by eapply fields_length).
Qed.

(** [process_cpe_str] in terms of the scan and of [unbind_values]. *)
Lemma process_cpe_str_eq s :
  process_cpe_str s =
  match split_cpe s with
  | None => Raise MalformedInput
  | Some fs =>
      vs ← unbind_values fs; Ok (zip attribute_names (Some <$> vs))
  end.
Proof.
  unfold process_cpe_str. rewrite re_match_split_cpe.
  destruct (split_cpe s) as [fs|] eqn:E; [|done]. simpl.
  apply unbind_unbind_values. by eapply split_cpe_length.
Qed.

Lemma unbind_values_length fs vs :
  unbind_values fs = Ok vs → length vs = length fs.
Proof.
  revert vs. induction fs as [|f fs IH]; intros vs; simpl.
  - by intros [= <-].
  - destruct (unbind_value f); [|done]. simpl.
    destruct (unbind_values fs); [|done]. simpl.
    intros [= <-]. simpl. f_equal. by apply IH.
Qed.

Lemma unbind_value_raises value e :
  unbind_value value = Raise e →
  e = InvalidWildcardPlacement ∨ e = InvalidSingleCharWildcardPlacement.
Proof.
  unfold unbind_value. repeat case_bool_decide; [done..|].
  apply add_quoting_raises.
Qed.

Lemma unbind_values_raises fs e :
  unbind_values fs = Raise e →
  e = InvalidWildcardPlacement ∨ e = InvalidSingleCharWildcardPlacement.
Proof.
  induction fs as [|f fs IH]; simpl; [done|].
  destruct (unbind_value f) eqn:E; simpl.
  - destruct (unbind_values fs); simpl; [done|]. intros [= ->]. by apply IH.
  - intros [= ->]. by eapply unbind_value_raises.
Qed.

(** A segment on which [unbind_value] raises makes the whole loop raise:
    its own exception when the segments before it are accepted. *)
Lemma unbind_values_fails fs n c e :
  fs !! n = Some c →
  unbind_value c = Raise e →
  (∃ e', unbind_values fs = Raise e')
  ∧ ((∀ j c', j < n → fs !! j = Some c' → ∃ v, unbind_value c' = Ok v) →
     unbind_values fs = Raise e).
Proof.
  revert n. induction fs as [|f fs IH]; intros n Hn He; [done|].
  destruct n as [|n]; simpl in *.
  - injection Hn as ->. rewrite He. split; [by eexists | done].
  - destruct (IH n Hn He) as [[e' He'] Hfirst].
    destruct (unbind_value f) as [v|e0] eqn:Ef; simpl.
    + rewrite He'. simpl. split; [by eexists|].
      intros Hbefore. rewrite Hfirst in He'.
      * congruence.
      * intros j c' Hj. apply (Hbefore (S j)). lia.
    + split; [by eexists|]. intros Hbefore.
      destruct (Hbefore 0 f) as [v Hv]; [lia | done | congruence].
Qed.

(** ** The prefix *)

(** C2 (the code departs from the claim).  The eight characters [cpe:2x3:]
    are not [cpe:2.3:], and yet the string is parsed: the dot of the pattern
    stands for any character. *)
Theorem process_cpe_str_accepts_other_prefix :
  take 8 (py "cpe:2x3:a:b:c:d:e:f:g:h:i:j:k") ≠ py "cpe:2.3:"
  ∧ process_cpe_str (py "cpe:2x3:a:b:c:d:e:f:g:h:i:j:k") =
    Ok [ item "part" "a"; item "vendor" "b"; item "product" "c";
         item "version" "d"; item "update" "e"; item "edition" "f";
         item "language" "g"; item "sw_edition" "h"; item "target_sw" "i";
         item "target_hw" "j"; item "other" "k" ].
Proof. split; [discriminate | reflexivity]. Qed.

Lemma strip_Some l s s' : strip l s = Some s' → s = l ++ s'.
Proof.
  revert s. induction l as [|c l IH]; intros s; simpl.
  - by intros [= ->].
  - destruct s as [|c' s]; [done|]. case_bool_decide; [|done].
    intros ->%IH. by subst.
Qed.

Lemma strip_app l s : strip l (l ++ s) = Some s.
Proof.
  induction l as [|c l IH]; simpl; [done|]. by rewrite bool_decide_eq_true_2.
Qed.

Lemma strip_app_r l s s' t :
  strip l s = Some s' → strip l (s ++ t) = Some (s' ++ t).
Proof. intros ->%strip_Some. by rewrite <-(assoc_L (++)), strip_app. Qed.

(** What the code asks of the first eight characters: the sixth is any
    character but a newline. *)
Lemma process_cpe_str_prefix s :
  process_cpe_str s ≠ Raise MalformedInput →
  ∃ d rest, s = py "cpe:2" ++ d :: py "3:" ++ rest ∧ d ≠ newline.
Proof.
  rewrite process_cpe_str_eq. unfold split_cpe. intros H.
  destruct (strip (py "cpe:2") s) as [[|d s2]|] eqn:E1; [done| |done].
  apply strip_Some in E1 as ->. cbn [mbind option_bind] in H.
  case_bool_decide; [done|].
  destruct (strip (py "3:") s2) as [s3|] eqn:E2; [|done].
  apply strip_Some in E2 as ->. by exists d, s3.
Qed.

(** ** What follows the eleventh segment *)

Lemma segment_app_colon s t : segment (s ++ ":" :: t) = segment s.
Proof.
  induction s as [|c s IH]; simpl; [done|].
  case_bool_decide; [done|]. by rewrite IH.
Qed.

Lemma after_segment_app_colon s t :
  after_segment (s ++ ":" :: t) = after_segment s ++ ":" :: t.
Proof.
  induction s as [|c s IH]; simpl; [done|].
  case_bool_decide; [done|]. by rewrite IH.
Qed.

Lemma fields_app_colon n s t fs :
  fields n s = Some fs → fields n (s ++ ":" :: t) = Some fs.
Proof.
  revert s fs. induction n as [|n IH]; intros s fs; [done|].
  destruct s as [|c s]; [done|]. simpl.
  case_bool_decide; [|done].
  rewrite segment_app_colon, after_segment_app_colon.
  destruct (fields n (after_segment s)) as [fs'|] eqn:E; [|done].
  by rewrite (IH _ _ E).
Qed.

Lemma split_cpe_app_colon s t fs :
  split_cpe s = Some fs → split_cpe (s ++ ":" :: t) = Some fs.
Proof.
  unfold split_cpe.
  destruct (strip (py "cpe:2") s) as [[|d s2]|] eqn:E1; [done| |done].
  rewrite (strip_app_r _ _ _ _ E1). cbn [mbind option_bind app].
  case_bool_decide; [done|].
  destruct (strip (py "3:") s2) as [[|p s4]|] eqn:E2; [done| |done].
  rewrite (strip_app_r _ _ _ _ E2). cbn [mbind option_bind app].
  case_bool_decide; [|done].
  destruct (fields 10 s4) as [fs'|] eqn:E; [|done].
  by rewrite (fields_app_colon _ _ _ _ E).
Qed.

(** C3.  When [process_cpe_str] parses [s], it parses [s] followed by a
    colon and any string [t] as well, and returns the same record: the match
    is not anchored at the end. *)
Theorem process_cpe_str_ignores_trailing s t r :
  process_cpe_str s = Ok r →
  process_cpe_str (s ++ py ":" ++ t) = Ok r.
Proof.
  rewrite !process_cpe_str_eq.
  destruct (split_cpe s) as [fs|] eqn:E; [|done].
  change (py ":" ++ t) with (":" :: t).
  by rewrite (split_cpe_app_colon _ _ _ E).
Qed.

Lemma process_cpe_str_ignores_trailing_witness :
  process_cpe_str
    (py "cpe:2.3:a:mozilla:firefox:esr-78.16.0:*:*:*:*:*:*:*"
     ++ py ":" ++ py "trailing:garbage") =
  Ok [ item "part" "a"; item "vendor" "mozilla"; item "product" "firefox";
       item "version" "esr\-78\.16\.0"; item "update" "ANY";
       item "edition" "ANY"; item "language" "ANY"; item "sw_edition" "ANY";
       item "target_sw" "ANY"; item "target_hw" "ANY"; item "other" "ANY" ].
Proof.
  apply process_cpe_str_ignores_trailing. reflexivity.
Defined.

(** ** Too few segments *)

Lemma split_colon_length_cons c s :
  c ≠ ":" → length (split_colon (c :: s)) = length (split_colon s).
Proof.
  intros Hc. simpl. rewrite bool_decide_eq_false_2 by done.
  destruct (split_colon s) eqn:E; [|done].
  by destruct s; simpl in E; repeat case_match.
Qed.

Lemma split_colon_after_segment s :
  length (split_colon (after_segment s)) ≤ length (split_colon s).
Proof.
  induction s as [|c s IH]; [done|].
  cbn [after_segment]. case_bool_decide as Hc; [done|].
  by rewrite split_colon_length_cons.
Qed.

Lemma fields_split_colon n s fs :
  fields n s = Some fs → n < length (split_colon s).
Proof.
  revert s fs. induction n as [|n IH]; intros s fs.
  - intros _. destruct s as [|c s]; simpl; [lia|]. repeat case_match; simpl; lia.
  - destruct s as [|c s]; [done|]. simpl.
    case_bool_decide; [|done].
    destruct (fields n (after_segment s)) as [fs'|] eqn:E; [|done].
    intros _. apply IH in E.
    pose proof (split_colon_after_segment s). simpl. lia.
Qed.

(** C8.  After the prefix [cpe:2.3:], a string with fewer than eleven
    segments between colons makes [process_cpe_str] raise the invalid-format
    error; an exception carries no record. *)
Theorem process_cpe_str_too_few_segments rest :
  length (split_colon rest) < 11 →
  process_cpe_str (py "cpe:2.3:" ++ rest) = Raise MalformedInput.
Proof.
  intros Hlen. rewrite process_cpe_str_eq.
  destruct (split_cpe (py "cpe:2.3:" ++ rest)) as [fs|] eqn:E; [|done].
  exfalso. unfold split_cpe in E.
  change (py "cpe:2.3:" ++ rest) with (py "cpe:2" ++ "." :: py "3:" ++ rest) in E.
  rewrite strip_app in E. cbn [mbind option_bind] in E.
  rewrite bool_decide_eq_false_2 in E by done.
  rewrite strip_app in E. cbn [mbind option_bind] in E.
  destruct rest as [|p s4]; [done|].
  case_bool_decide as Hp; [|done].
  destruct (fields 10 s4) as [fs'|] eqn:Ef; [|done].
  apply fields_split_colon in Ef.
  rewrite split_colon_length_cons in Hlen; [lia|].
  intros ->. apply (bool_decide_pack _) in Hp. by vm_compute in Hp.
Qed.

Lemma process_cpe_str_too_few_segments_witness :
  process_cpe_str
    (py "cpe:2.3:" ++ py "h:-:acrobat_reader:DC-2019.012.20051:-:-:-*") =
  Raise MalformedInput.
Proof.
  apply process_cpe_str_too_few_segments. vm_compute. lia.
Defined.

(** ** The record *)

(** C7.  A record that [process_cpe_str] returns has the eleven keys
    [part] to [other], in that order and no other, and every value is a
    string, none is [None]. *)
Theorem process_cpe_str_record s r :
  process_cpe_str s = Ok r →
  r.*1 = attribute_names
  ∧ length r = 11
  ∧ Forall (λ kv, ∃ v : str, kv.2 = Some v) r.
Proof.
  rewrite process_cpe_str_eq.
  destruct (split_cpe s) as [fs|] eqn:E; [|done].
  apply split_cpe_length in E.
  destruct (unbind_values fs) as [vs|] eqn:Evs; [|done].
  apply unbind_values_length in Evs. rewrite E in Evs.
  intros [= <-].
  do 11 (destruct vs as [|? vs]; [done|]). destruct vs; [|done].
  split; [done|]. split; [done|].
  repeat constructor; by eexists.
Qed.

Lemma process_cpe_str_record_witness :
  let r := [ item "part" "o"; item "vendor" "apple"; item "product" "ios";
             item "version" "15\.1\-beta"; item "update" "ANY";
             item "edition" "\."; item "language" "ANY";
             item "sw_edition" "ANY"; item "target_sw" "ANY";
             item "target_hw" "ANY"; item "other" "NA" ] in
  r.*1 = attribute_names
  ∧ length r = 11
  ∧ Forall (λ kv, ∃ v : str, kv.2 = Some v) r.
Proof.
  apply (process_cpe_str_record (py "cpe:2.3:o:apple:ios:15.1-beta:*:.:*:*:*:*:-")).
  reflexivity.
Defined.

(** ** The absent-value branch *)

(** The test [v is None] of [unbind] does raise when it is given a group
    that took no part in a match. *)
Example unbind_missing_attribute :
  unbind [ Some (py "a"); None; Some []; Some []; Some []; Some [];
           Some []; Some []; Some []; Some []; Some [] ] =
  Raise (MissingAttribute (py "vendor")).
Proof. reflexivity. Qed.

(** C9.  Every group of a match of the pattern holds a string, an empty one
    at the least, and there are eleven of them; [process_cpe_str] never
    raises the missing-attribute error. *)
Theorem process_cpe_str_never_missing_attribute s :
  (∀ match_, re_match 11 cpe_2_3_formatted_pattern s = Some match_ →
     length match_ = 11 ∧ Forall is_Some match_)
  ∧ ∀ k, process_cpe_str s ≠ Raise (MissingAttribute k).
Proof.
  split.
  - intros match_. rewrite re_match_split_cpe.
    destruct (split_cpe s) as [fs|] eqn:E; [|done]. simpl. intros [= <-].
    rewrite length_fmap. split; [by eapply split_cpe_length|].
    apply Forall_fmap, Forall_true. by eexists.
  - intros k. rewrite process_cpe_str_eq.
    destruct (split_cpe s) as [fs|]; [|done].
    destruct (unbind_values fs) as [vs|e] eqn:E; [done|]. simpl.
    apply unbind_values_raises in E as [-> | ->]; done.
Qed.

Lemma process_cpe_str_never_missing_attribute_witness :
  let match_ : groups :=
    Some <$> [ py "a"; []; py "firefox"; []; []; []; []; []; []; []; [] ] in
  length match_ = 11 ∧ Forall is_Some match_.
Proof.
  apply (proj1 (process_cpe_str_never_missing_attribute
                  (py "cpe:2.3:a::firefox::::::::"))).
  reflexivity.
Defined.

(** ** A misplaced asterisk *)

Lemma interior_asterisk_unbind_value string :
  interior_asterisk string →
  unbind_value string = Raise InvalidWildcardPlacement.
Proof.
  intros H. pose proof H as (i & _ & _ & H0 & Hlast).
  unfold unbind_value.
  rewrite !bool_decide_eq_false_2.
  - by apply add_quoting_interior_asterisk.
  - intros ->. simpl in Hlast. lia.
  - intros ->. simpl in Hlast. lia.
Qed.

(** C5, as the claim states it, fails: the segments are encoded in order,
    and here [vendor] raises the question-mark error before [product], which
    has an asterisk in the middle, is looked at. *)
Lemma process_cpe_str_interior_asterisk_other_error :
  let s := py "cpe:2.3:a:x?y:a*b:c:d:e:f:g:h:i:j" in
  re_match 11 cpe_2_3_formatted_pattern s =
    Some (Some <$> [ py "a"; py "x?y"; py "a*b"; py "c"; py "d"; py "e";
                     py "f"; py "g"; py "h"; py "i"; py "j" ])
  ∧ interior_asterisk (py "a*b")
  ∧ process_cpe_str s = Raise InvalidSingleCharWildcardPlacement
  ∧ process_cpe_str s ≠ Raise InvalidWildcardPlacement.
Proof.
  split; [reflexivity|]. split; [|split; [reflexivity | discriminate]].
  exists 1. split; [|split; [reflexivity | simpl; lia]].
  exists (State (py "a") 1 true). split; [|simpl; lia].
  by apply (iterations_reaches 1).
Qed.

(** The loop stops at the first segment that [unbind_value] rejects, with
    the exception of that segment. *)
Lemma unbind_values_first_rejected fs n c e :
  fs !! n = Some c →
  unbind_value c = Raise e →
  ∃ j cj ej,
    j ≤ n
    ∧ fs !! j = Some cj
    ∧ unbind_value cj = Raise ej
    ∧ (∀ i ci, i < j → fs !! i = Some ci → ∃ v, unbind_value ci = Ok v)
    ∧ unbind_values fs = Raise ej.
Proof.
  revert n. induction fs as [|f fs IH]; intros n Hn He; [done|].
  destruct (unbind_value f) as [v|e0] eqn:Ef.
  - destruct n as [|n]; simpl in Hn.
    { injection Hn as ->. congruence. }
    destruct (IH n Hn He) as (j & cj & ej & Hj & Hcj & Hej & Hbefore & Hall).
    exists (S j), cj, ej. split; [lia|]. split; [done|]. split; [done|].
    split.
    + intros [|i] ci Hi Hci; simpl in Hci.
      * injection Hci as <-. by exists v.
      * apply (Hbefore i ci); [lia | done].
    + simpl. rewrite Ef. simpl. by rewrite Hall.
  - exists 0, f, e0. split; [lia|]. split; [done|]. split; [done|].
    split; [intros i ci Hi; lia|]. simpl. by rewrite Ef.
Qed.

(** C5, amended.  A component with an unescaped asterisk at an interior
    position that the scan reads makes [add_quoting] raise the asterisk
    error.  A string whose match has such a component in one of its eleven
    groups is not parsed: [process_cpe_str] raises one of the two placement
    errors, the asterisk error when [unbind_value] accepts every group
    before that one, and in every case the error of the first group that
    [unbind_value] rejects, which is that component or a group before it. *)
Theorem process_cpe_str_interior_asterisk s match_ n comp :
  re_match 11 cpe_2_3_formatted_pattern s = Some match_ →
  match_ !! n = Some (Some comp) →
  interior_asterisk comp →
  add_quoting comp = Raise InvalidWildcardPlacement
  ∧ (∃ e, process_cpe_str s = Raise e
          ∧ (e = InvalidWildcardPlacement
             ∨ e = InvalidSingleCharWildcardPlacement))
  ∧ ((∀ j c, j < n → match_ !! j = Some (Some c) →
             ∃ v, unbind_value c = Ok v) →
     process_cpe_str s = Raise InvalidWildcardPlacement)
  ∧ (∃ j cj ej,
       j ≤ n
       ∧ match_ !! j = Some (Some cj)
       ∧ unbind_value cj = Raise ej
       ∧ (∀ i ci, i < j → match_ !! i = Some (Some ci) →
                  ∃ v, unbind_value ci = Ok v)
       ∧ process_cpe_str s = Raise ej).
Proof.
  intros Hm Hn Hcomp. split; [by apply add_quoting_interior_asterisk|].
  rewrite process_cpe_str_eq. rewrite re_match_split_cpe in Hm.
  destruct (split_cpe s) as [fs|]; [|done].
  simpl in Hm. injection Hm as <-.
  rewrite list_lookup_fmap in Hn.
  destruct (fs !! n) as [c|] eqn:Hc; [|done]. injection Hn as ->.
  destruct (unbind_values_fails fs n comp InvalidWildcardPlacement Hc
              (interior_asterisk_unbind_value _ Hcomp)) as [[e He] Hfirst].
  split; [|split].
  - exists e. rewrite He. split; [done|]. by eapply unbind_values_raises.
  - intros Hbefore. rewrite Hfirst; [done|].
    intros j c' Hj Hc'. apply (Hbefore j c' Hj).
    by rewrite list_lookup_fmap, Hc'.
  - destruct (unbind_values_first_rejected fs n comp InvalidWildcardPlacement
                Hc (interior_asterisk_unbind_value _ Hcomp))
      as (j & cj & ej & Hj & Hcj & Hej & Hbefore & Hall).
    exists j, cj, ej. split; [done|].
    split; [by rewrite list_lookup_fmap, Hcj|]. split; [done|].
    split; [|by rewrite Hall].
    intros i ci Hi Hci. apply (Hbefore i ci Hi).
    rewrite list_lookup_fmap in Hci.
    destruct (fs !! i); by simplify_eq/=.
Qed.

Lemma process_cpe_str_interior_asterisk_witness :
  add_quoting (py "acrob*at_reader") = Raise InvalidWildcardPlacement
  ∧ process_cpe_str
      (py "cpe:2.3:h:-:acrob*at_reader:DC-2019.012.20051:-:-:-*:::::") =
    Raise InvalidWildcardPlacement.
Proof.
  pose (s := py "cpe:2.3:h:-:acrob*at_reader:DC-2019.012.20051:-:-:-*:::::").
  pose (m := Some <$> [ py "h"; py "-"; py "acrob*at_reader";
                        py "DC-2019.012.20051"; py "-"; py "-"; py "-*";
                        []; []; []; [] ]).
  assert (Hcomp : interior_asterisk (py "acrob*at_reader")).
  { exists 5. split; [|split; [reflexivity | simpl; lia]].
    exists (State (py "acrob") 5 true). split; [|simpl; lia].
    by apply (iterations_reaches 5). }
  destruct (process_cpe_str_interior_asterisk s m 2 (py "acrob*at_reader"))
    as (Henc & _ & Hparse & _); [reflexivity | reflexivity | exact Hcomp |].
  split; [exact Henc|].
  apply Hparse. intros j c Hj Hc.
  destruct j as [|[|j]]; [| |lia]; injection Hc as <-;
    [exists (py "h") | exists (py "NA")]; reflexivity.
Defined.

(** ** The examples of the test suite *)

Example test_valid_slash_red_hat :
  process_cpe_str (py "cpe:2.3:o:IBM/Red_Hat:RHEL:8.4.2-1:*:*:*:*:*:*:*") =
  Ok [ item "part" "o"; item "vendor" "IBM\/Red_Hat"; item "product" "RHEL";
       item "version" "8\.4\.2\-1"; item "update" "ANY"; item "edition" "ANY";
       item "language" "ANY"; item "sw_edition" "ANY"; item "target_sw" "ANY";
       item "target_hw" "ANY"; item "other" "ANY" ].
Proof. reflexivity. Qed.

Example test_valid_multiple_dots_and_hyphens :
  process_cpe_str
    (py "cpe:2.3:h:-:acrobat_reader:DC-2019.012.20051:-:-:-:.:.:.:*") =
  Ok [ item "part" "h"; item "vendor" "NA"; item "product" "acrobat_reader";
       item "version" "DC\-2019\.012\.20051"; item "update" "NA";
       item "edition" "NA"; item "language" "NA"; item "sw_edition" "\.";
       item "target_sw" "\."; item "target_hw" "\."; item "other" "ANY" ].
Proof. reflexivity. Qed.

Example test_valid_hyphen_mozilla :
  process_cpe_str (py "cpe:2.3:a:mozilla:firefox:esr-78.16.0:*:*:*:*:*:*:*") =
  Ok [ item "part" "a"; item "vendor" "mozilla"; item "product" "firefox";
       item "version" "esr\-78\.16\.0"; item "update" "ANY";
       item "edition" "ANY"; item "language" "ANY"; item "sw_edition" "ANY";
       item "target_sw" "ANY"; item "target_hw" "ANY"; item "other" "ANY" ].
Proof. reflexivity. Qed.

Example test_valid_hyphen_ios :
  process_cpe_str (py "cpe:2.3:o:apple:ios:15.1-beta:*:.:*:*:*:*:-") =
  Ok [ item "part" "o"; item "vendor" "apple"; item "product" "ios";
       item "version" "15\.1\-beta"; item "update" "ANY"; item "edition" "\.";
       item "language" "ANY"; item "sw_edition" "ANY"; item "target_sw" "ANY";
       item "target_hw" "ANY"; item "other" "NA" ].
Proof. reflexivity. Qed.

Example test_invalid_missing_parts :
  process_cpe_str
    (py "cpe:2.3:h:-:acrobat_reader:DC-2019.012.20051:-:-:-*") =
  Raise MalformedInput.
Proof. reflexivity. Qed.

Example test_invalid_missing_version :
  process_cpe_str
    (py "cpe::h:-:acrob?at_reader:DC-2019.012.20051:-:-:-*") =
  Raise MalformedInput.
Proof. reflexivity. Qed.

(** The two strings that the suite gives for a misplaced asterisk and a
    misplaced question mark have seven segments: the [ValueError] that the
    tests see is the one of the format. *)
Example test_invalid_asterisk_in_middle :
  process_cpe_str
    (py "cpe:2.3:h:-:acrob*at_reader:DC-2019.012.20051:-:-:-*") =
  Raise MalformedInput.
Proof. reflexivity. Qed.

Example test_invalid_quote_in_middle :
  process_cpe_str
    (py "cpe:2.3:h:-:acrob?at_reader:DC-2019.012.20051:-:-:-*") =
  Raise MalformedInput.
Proof. reflexivity. Qed.

(** With eleven segments they reach the encoder. *)
Example asterisk_in_middle :
  process_cpe_str
    (py "cpe:2.3:h:-:acrob*at_reader:DC-2019.012.20051:-:-:-:*:*:*:*") =
  Raise InvalidWildcardPlacement.
Proof. reflexivity. Qed.

Example question_mark_in_middle :
  process_cpe_str
    (py "cpe:2.3:h:-:acrob?at_reader:DC-2019.012.20051:-:-:-:*:*:*:*") =
  Raise InvalidSingleCharWildcardPlacement.
Proof. reflexivity. Qed.

(** * Further properties of the encoder *)

Lemma unreserved_not_special c : unreserved c = true → ¬ special c.
Proof. intros H [-> | [-> | ->]]; discriminate H. Qed.

Lemma loop_body_plain string st c :
  string !! idx st = Some c →
  ¬ special c →
  loop_body string st =
    Ok (State (result st ++ escape_char c) (idx st + 1) true).
Proof.
  intros Hc Hs. unfold loop_body, escape_char, unreserved.
  rewrite (getitem_lookup _ _ _ Hc). simpl.
  destruct (isalnum c || bool_decide (c = "_")); [done|].
  rewrite !bool_decide_eq_false_2; [done|..];
    intros ->; apply Hs; unfold special; auto.
Qed.

Lemma while_loop_plain (pre post out : str) b :
  Forall (λ c, ¬ special c) post →
  while_loop (pre ++ post) (State out (length pre) b) =
  Ok (out ++ concat (escape_char <$> post)).
Proof.
  revert pre out b. induction post as [|c post IH]; intros pre out b Hpost.
  - rewrite while_loop_past_end by (simpl; rewrite length_app; simpl; lia).
    simpl. by rewrite app_nil_r.
  - apply Forall_cons in Hpost as [Hc Hpost].
    rewrite while_loop_eq. cbn [idx].
    rewrite (proj2 (Nat.ltb_lt _ _)) by (rewrite length_app; simpl; lia).
    rewrite (loop_body_plain _ _ c); [|by apply list_lookup_middle|done].
    cbn [mbind res_bind result idx].
    replace (length pre + 1) with (length (pre ++ [c]))
      by (rewrite length_app; simpl; lia).
    rewrite (cons_middle c pre post), (assoc_L (++)).
    rewrite IH by done. simpl. by rewrite <-!(assoc_L (++)).
Qed.

Lemma add_quoting_plain string :
  Forall (λ c, ¬ special c) string →
  add_quoting string = Ok (concat (escape_char <$> string)).
Proof. intros H. exact (while_loop_plain [] string [] false H). Qed.

(** X1.  [add_quoting] raises nothing but the two placement errors: while the
    cursor is inside the string no index that the loop computes is out of
    range, [string[idx - 1]] included. *)
Theorem add_quoting_only_placement_errors string e :
  add_quoting string = Raise e →
  e = InvalidWildcardPlacement ∨ e = InvalidSingleCharWildcardPlacement.
Proof. apply while_loop_raises. Qed.

Lemma add_quoting_only_placement_errors_witness :
  InvalidSingleCharWildcardPlacement = InvalidWildcardPlacement
  ∨ InvalidSingleCharWildcardPlacement = InvalidSingleCharWildcardPlacement.
Proof.
  apply (add_quoting_only_placement_errors (py "acrob?at_reader")).
  reflexivity.
Defined.

(** X2.  A component made of letters, digits and underscores is returned as
    it is. *)
Theorem add_quoting_unreserved string :
  Forall (λ c, unreserved c = true) string →
  add_quoting string = Ok string.
Proof.
  intros H. rewrite add_quoting_plain.
  - f_equal. induction H as [|c s Hc _ IH]; [done|].
    simpl. unfold escape_char at 1. rewrite Hc. simpl. by f_equal.
  - eapply Forall_impl; [done|]. apply unreserved_not_special.
Qed.

Lemma add_quoting_unreserved_witness :
  add_quoting (py "acrobat_reader") = Ok (py "acrobat_reader").
Proof.
  apply add_quoting_unreserved. apply (bool_decide_unpack _). vm_compute. exact I.
Defined.

(** X3.  A component without an escape marker, an asterisk or a question
    mark is always accepted: every character that is not a letter, a digit
    or an underscore comes out with one escape marker before it, the others
    as they are. *)
Theorem add_quoting_without_wildcards string :
  Forall (λ c, c ≠ "\" ∧ c ≠ "*" ∧ c ≠ "?") string →
  add_quoting string = Ok (concat (escape_char <$> string)).
Proof.
  intros H. apply add_quoting_plain.
  eapply Forall_impl; [done|]. intros c (H1 & H2 & H3) [?|[?|?]]; done.
Qed.

Lemma add_quoting_without_wildcards_witness :
  add_quoting (py "DC-2019.012.20051") = Ok (py "DC\-2019\.012\.20051").
Proof.
  apply (add_quoting_without_wildcards (py "DC-2019.012.20051")).
  repeat constructor; discriminate.
Defined.

Lemma elem_of_slice (s : str) i j c : c ∈ slice s i j → c ∈ s.
Proof.
  unfold slice. intros H%elem_of_take. destruct H as (n & H & _).
  rewrite lookup_drop in H. by eapply list_elem_of_lookup_2.
Qed.

Lemma loop_body_characters string st st' c :
  loop_body string st = Ok st' →
  c ∈ result st' →
  c ∈ result st ∨ c = "\" ∨ c ∈ string.
Proof.
  unfold loop_body.
  destruct (getitem string (idx st)) as [char|] eqn:Hget; [|done].
  assert (Hchar : char ∈ string).
  { unfold getitem in Hget.
    destruct (string !! idx st) eqn:E; [|done]. injection Hget as ->.
    by eapply list_elem_of_lookup_2. }
  unfold mbind, res_bind.
  repeat case_match; intros; simplify_eq/=;
    repeat match goal with
    | H : _ ∈ _ ++ _ |- _ => apply elem_of_app in H as [H|H]
    | H : _ ∈ _ :: _ |- _ => apply elem_of_cons in H as [->|H]
    | H : _ ∈ [] |- _ => by apply elem_of_nil in H
    | H : _ ∈ slice _ _ _ |- _ => apply elem_of_slice in H
    end; auto.
Qed.

Lemma while_loop_characters string r c :
  ∀ n st, length string - idx st = n →
    while_loop string st = Ok r →
    c ∈ r → c ∈ result st ∨ c = "\" ∨ c ∈ string.
Proof.
  induction n as [n IH] using lt_wf_ind. intros st Hn.
  rewrite while_loop_eq.
  destruct (idx st <? length string) eqn:Hlt.
  - apply Nat.ltb_lt in Hlt.
    destruct (loop_body string st) as [st'|] eqn:Hbody; [|done]. simpl.
    intros Hr Hc. pose proof (loop_body_advances _ _ _ Hbody).
    destruct (IH (length string - idx st') ltac:(lia) st' eq_refl Hr Hc)
      as [H'|H']; [|by auto].
    by eapply loop_body_characters.
  - intros [= <-]. auto.
Qed.

Lemma add_quoting_characters_aux string r c :
  add_quoting string = Ok r → c ∈ r → c = "\" ∨ c ∈ string.
Proof.
  intros Hr Hc.
  destruct (while_loop_characters string r c _ init eq_refl Hr Hc)
    as [H|H]; [|done].
  by apply elem_of_nil in H.
Qed.

(** X4.  [add_quoting] invents no character: what it returns is made of
    characters of the component and of escape markers. *)
Theorem add_quoting_characters string r c :
  add_quoting string = Ok r → c ∈ r → c = "\" ∨ c ∈ string.
Proof.
  intros Hr Hc.
  destruct (while_loop_characters string r c _ init eq_refl Hr Hc)
    as [H|H]; [|done].
  by apply elem_of_nil in H.
Qed.

Lemma add_quoting_characters_witness :
  "/" = "\" ∨ "/" ∈ py "IBM/Red_Hat".
Proof.
  apply (add_quoting_characters (py "IBM/Red_Hat") (py "IBM\/Red_Hat")).
  - reflexivity.
  - apply (bool_decide_unpack _). vm_compute. exact I.
Defined.

Lemma loop_body_embedded string st st' :
  loop_body string st = Ok st' → embedded st' = true.
Proof.
  unfold loop_body, mbind, res_bind.
  destruct (getitem string (idx st)) as [char|]; [|done].
  repeat case_match; intros; by simplify_eq/=.
Qed.

Lemma reaches_embedded_aux string st :
  reaches string st → 0 < idx st → embedded st = true.
Proof.
  destruct 1 as [|st st' _ _ Hbody]; [simpl; lia|].
  intros _. by eapply loop_body_embedded.
Qed.

(** X5.  Every iteration that returns leaves the embedded flag set, the one
    that accepts a question mark too: the flag is clear in the first
    iteration and in no other, so the test for a leading run of question
    marks, which needs it clear at a position other than the first, never
    holds. *)
Theorem reaches_embedded string st :
  reaches string st → 0 < idx st → embedded st = true.
Proof.
  destruct 1 as [|st st' _ _ Hbody]; [simpl; lia|].
  intros _. by eapply loop_body_embedded.
Qed.

Lemma reaches_embedded_witness :
  embedded (State (py "?\?") 2 true) = true.
Proof.
  apply (reaches_embedded (py "??a")).
  - by apply (iterations_reaches 1).
  - simpl. lia.
Defined.

(** X6.  A question mark that the scan reads at an interior position, the
    next character not being a question mark, makes [add_quoting] raise the
    question-mark error, whatever comes before it. *)
Theorem add_quoting_interior_question_mark string i :
  scanned string i →
  string !! i = Some "?" →
  0 < i → i < length string - 1 →
  string !! (i + 1) ≠ Some "?" →
  add_quoting string = Raise InvalidSingleCharWildcardPlacement.
Proof.
  intros (st & Hst & <- & Hlt) Hc H0 Hlast Hnext.
  rewrite (reaches_while_loop _ _ Hst), while_loop_eq.
  apply Nat.ltb_lt in Hlt as ->.
  unfold loop_body. rewrite (getitem_lookup _ _ _ Hc). simpl.
  unfold question_mark_ok.
  rewrite (proj2 (Nat.eqb_neq _ _)) by lia.
  rewrite (proj2 (Nat.eqb_neq _ _)) by lia.
  rewrite (reaches_embedded_aux _ _ Hst H0). simpl.
  rewrite bool_decide_eq_false_2; [done|].
  unfold slice. replace (idx st + 1 + 1 - (idx st + 1)) with 1 by lia.
  destruct (string !! (idx st + 1)) as [c|] eqn:E.
  - rewrite (drop_S _ _ _ E). simpl. rewrite take_0. congruence.
  - apply lookup_ge_None in E. lia.
Qed.

Lemma add_quoting_interior_question_mark_witness :
  add_quoting (py "acrob?at_reader") = Raise InvalidSingleCharWildcardPlacement.
Proof.
  apply (add_quoting_interior_question_mark _ 5).
  - exists (State (py "acrob") 5 true).
    split; [by apply (iterations_reaches 5) | simpl; lia].
  - reflexivity.
  - lia.
  - simpl. lia.
  - discriminate.
Defined.

Lemma while_loop_without_marker string r :
  "\" ∉ r →
  ∀ n st, length string - idx st = n →
    idx st ≤ length string →
    while_loop string st = Ok r →
    r = result st ++ drop (idx st) string.
Proof.
  intros Hr. induction n as [n IH] using lt_wf_ind. intros st Hn Hle.
  rewrite while_loop_eq.
  destruct (idx st <? length string) eqn:Hlt; cycle 1.
  { apply Nat.ltb_ge in Hlt. intros [= <-].
    by rewrite drop_ge, app_nil_r by lia. }
  apply Nat.ltb_lt in Hlt.
  destruct (loop_body string st) as [st'|] eqn:Hbody; [|done].
  cbn [mbind res_bind]. intros Hw.
  destruct (while_loop_result _ _ _ _ eq_refl Hw) as [t Ht].
  assert (Hres : "\" ∉ result st').
  { intros H. apply Hr. rewrite Ht. apply elem_of_app. by left. }
  destruct (getitem_lt string (idx st) Hlt) as (char & Hget & Hchar).
  assert (Hst' : st' = State (result st ++ [char]) (idx st + 1) true).
  { revert Hbody. unfold loop_body. rewrite Hget. unfold mbind, res_bind.
    unfold slice. replace (idx st + 1 + 1 - idx st) with 2 by lia.
    rewrite (drop_S _ _ _ Hchar).
    repeat case_match; intros; simplify_eq/=; try done;
      repeat match goal with
      | H : bool_decide _ = true |- _ => apply bool_decide_eq_true_1 in H
      end; subst;
      exfalso; apply Hres; simpl; rewrite ?elem_of_app, ?elem_of_cons; auto. }
  subst st'. cbn [result idx] in *.
  rewrite (IH (length string - (idx st + 1)) ltac:(lia)
             (State (result st ++ [char]) (idx st + 1) true) eq_refl)
    by (done || simpl; lia).
  cbn [result idx]. rewrite <-(assoc_L (++)). simpl.
  by rewrite (drop_S _ _ _ Hchar), Nat.add_1_r.
Qed.

Lemma add_quoting_without_marker_aux string r :
  add_quoting string = Ok r → "\" ∉ r → r = string.
Proof.
  intros H Hr.
  apply (while_loop_without_marker string r Hr _ init eq_refl); [simpl; lia | done].
Qed.

(** X7.  When what [add_quoting] returns has no escape marker in it, it is
    the component itself: nothing was escaped, and nothing was dropped. *)
Theorem add_quoting_without_marker string r :
  add_quoting string = Ok r → "\" ∉ r → r = string.
Proof.
  intros H Hr.
  apply (while_loop_without_marker string r Hr _ init eq_refl); [simpl; lia | done].
Qed.

Lemma add_quoting_without_marker_witness : py "*RHEL" = py "*RHEL".
Proof.
  apply (add_quoting_without_marker (py "*RHEL") (py "*RHEL")); [reflexivity|].
  apply (bool_decide_unpack _). vm_compute. exact I.
Defined.

(** X8.  [unbind_value] returns ["ANY"] for the segment ["*"] and for the
    segment ["ANY"], and for no other; it returns ["NA"] for ["-"] and for
    ["NA"], and for no other: in a record the wildcard cannot be told from
    the literal. *)
Theorem unbind_value_any_na value :
  (unbind_value value = Ok (py "ANY") ↔ value = py "*" ∨ value = py "ANY")
  ∧ (unbind_value value = Ok (py "NA") ↔ value = py "-" ∨ value = py "NA").
Proof.
  split; (split; [|by intros [-> | ->]]); unfold unbind_value;
    repeat case_bool_decide; try by auto.
  all: intros Hquoted; right; symmetry;
    apply (add_quoting_without_marker_aux _ _ Hquoted);
    apply (bool_decide_unpack _); vm_compute; exact I.
Qed.

Lemma unbind_value_any_na_witness :
  py "ANY" = py "*" ∨ py "ANY" = py "ANY".
Proof.
  apply (proj1 (proj1 (unbind_value_any_na (py "ANY")))). reflexivity.
Defined.

Lemma add_quoting_idempotent_without_question_mark_witness :
  add_quoting (py "IBM\/Red_Hat") = Ok (py "IBM\/Red_Hat").
Proof.
  apply (add_quoting_idempotent_without_question_mark (py "IBM/Red_Hat"));
    [|reflexivity].
  intros i _ H.
  do 11 (destruct i as [|i]; [discriminate H|]). discriminate H.
Defined.

(** * Further properties of the parser *)

Lemma for_items_visit_items (pre post : dict) :
  NoDup (pre.*1 ++ post.*1) →
  for_items (length post) (length pre) (pre ++ post) =
  rest ← visit_items post; Ok (pre ++ rest).
Proof.
  revert pre. induction post as [|[k [v|]] post IH]; intros pre Hnd.
  - simpl. by rewrite app_nil_r.
  - cbn [length for_items visit_items].
    rewrite list_lookup_middle by done.
    destruct (unbind_value v) as [v'|e] eqn:Ev; [|done].
    cbn [mbind res_bind].
    rewrite setitem_app.
    2:{ apply NoDup_app in Hnd as (_ & Hnd & _). intros Hin.
        apply (Hnd _ Hin). simpl. left. }
    specialize (IH (pre ++ [(k, Some v')])).
    rewrite length_app, Nat.add_1_r, <-(assoc_L (++)) in IH.
    cbn [app] in IH. rewrite IH.
    2:{ rewrite fmap_app, <-(assoc_L (++)). done. }
    destruct (visit_items post) as [rest|e]; [|done].
    simpl. by rewrite <-(assoc_L (++)).
  - cbn [length for_items visit_items].
    by rewrite list_lookup_middle by done.
Qed.

Lemma visit_items_missing (items : dict) i k :
  items !! i = Some (k, None) →
  (∀ j kj vj, j < i → items !! j = Some (kj, vj) →
     ∃ c v, vj = Some c ∧ unbind_value c = Ok v) →
  visit_items items = Raise (MissingAttribute k).
Proof.
  revert i. induction items as [|[k0 v0] items IH]; intros i Hi Hbefore; [done|].
  destruct i as [|i]; simpl in Hi.
  - by injection Hi as -> ->.
  - destruct (Hbefore 0 k0 v0) as (c & v & -> & Hv); [lia | done |].
    simpl. rewrite Hv. simpl.
    rewrite (IH i); [done | done |].
    intros j kj vj Hj Hlook. apply (Hbefore (S j) kj vj); [lia | done].
Qed.

(** X10.  Given eleven groups of which one took no part in the match, while
    [unbind_value] accepts every group before it, [unbind] raises the
    missing-attribute error with the name of that attribute. *)
Theorem unbind_missing_group (match_ : groups) i k :
  length match_ = 11 →
  match_ !! i = Some None →
  attribute_names !! i = Some k →
  (∀ j g, j < i → match_ !! j = Some g →
     ∃ c v, g = Some c ∧ unbind_value c = Ok v) →
  unbind match_ = Raise (MissingAttribute k).
Proof.
  intros Hlen Hi Hk Hbefore.
  do 11 (destruct match_ as [|? match_]; [done|]).
  destruct match_; [|done].
  cbn [unbind].
  match goal with
  | |- for_items _ _ ?d = _ =>
      etrans; [apply (for_items_visit_items [] d)|]
  end.
  { apply (bool_decide_unpack _). vm_compute. exact I. }
  match goal with
  | |- (visit_items ?d ≫= _) = _ =>
      rewrite (visit_items_missing d i k); [done| |]
  end.
  - do 11 (destruct i as [|i];
      [simpl in Hi, Hk |- *; by injection Hi as ->; injection Hk as <-|]).
    done.
  - intros j kj vj Hj Hlook. apply (Hbefore j vj Hj).
    do 11 (destruct j as [|j]; [simpl in Hlook |- *; by injection Hlook as _ <-|]).
    done.
Qed.

Lemma unbind_missing_group_witness :
  unbind [ Some (py "a"); Some (py "*"); None; None; Some []; Some [];
           Some []; Some []; Some []; Some []; Some [] ] =
  Raise (MissingAttribute (py "product")).
Proof.
  apply (unbind_missing_group _ 2); [reflexivity..|].
  intros j g Hj Hg.
  destruct j as [|[|j]]; [| |lia]; injection Hg as <-;
    [exists (py "a"), (py "a") | exists (py "*"), (py "ANY")]; split; reflexivity.
Defined.

Lemma process_cpe_str_errors_aux s e :
  process_cpe_str s = Raise e →
  e = MalformedInput
  ∨ e = InvalidWildcardPlacement
  ∨ e = InvalidSingleCharWildcardPlacement.
Proof.
  rewrite process_cpe_str_eq.
  destruct (split_cpe s) as [fs|]; [|intros [= <-]; by left].
  destruct (unbind_values fs) as [vs|e'] eqn:E; [done|]. simpl.
  intros [= <-]. right. by eapply unbind_values_raises.
Qed.

(** X11.  [process_cpe_str] raises the invalid-format error or one of the
    two placement errors, and nothing else: no index error, no unpacking
    error. *)
Theorem process_cpe_str_errors s e :
  process_cpe_str s = Raise e →
  e = MalformedInput
  ∨ e = InvalidWildcardPlacement
  ∨ e = InvalidSingleCharWildcardPlacement.
Proof.
  rewrite process_cpe_str_eq.
  destruct (split_cpe s) as [fs|]; [|intros [= <-]; by left].
  destruct (unbind_values fs) as [vs|e'] eqn:E; [done|]. simpl.
  intros [= <-]. right. by eapply unbind_values_raises.
Qed.

Lemma process_cpe_str_errors_witness :
  InvalidWildcardPlacement = MalformedInput
  ∨ InvalidWildcardPlacement = InvalidWildcardPlacement
  ∨ InvalidWildcardPlacement = InvalidSingleCharWildcardPlacement.
Proof.
  apply (process_cpe_str_errors
           (py "cpe:2.3:a:b:c*d:e:f:g:h:i:j:k:l")).
  reflexivity.
Defined.

Lemma split_colon_segment s :
  split_colon s =
  segment s ::
    match after_segment s with
    | _ :: s' => split_colon s'
    | [] => []
    end.
Proof.
  induction s as [|c s IH]; [done|]. simpl.
  case_bool_decide; [done|]. by rewrite IH.
Qed.

Lemma after_segment_colon s :
  after_segment s = [] ∨ ∃ s', after_segment s = ":" :: s'.
Proof.
  induction s as [|c s IH]; [by left|]. simpl.
  case_bool_decide as Hc; [|done]. subst. right. by eexists.
Qed.

Lemma fields_split_colon_take n s :
  fields (S n) (":" :: s) =
  if S n <=? length (split_colon s)
  then Some (take (S n) (split_colon s))
  else None.
Proof.
  revert s. induction n as [|n IH]; intros s.
  - rewrite (split_colon_segment s). simpl. by rewrite take_0.
  - rewrite (split_colon_segment s).
    change (fields (S (S n)) (":" :: s))
      with ((segment s ::.) <$> fields (S n) (after_segment s)).
    destruct (after_segment_colon s) as [-> | [s' ->]]; [done|].
    rewrite IH. cbn [length take].
    change (S (S n) <=? S (length (split_colon s')))
      with (S n <=? length (split_colon s')).
    by destruct (S n <=? length (split_colon s')).
Qed.

(** The string after the eight characters of the prefix, as the pattern
    reads it. *)
Lemma split_cpe_prefix d rest :
  d ≠ newline →
  split_cpe (py "cpe:2" ++ d :: py "3:" ++ rest) =
  match split_colon rest with
  | [p] :: segs =>
      if bool_decide (p ∈ py "aho") && (10 <=? length segs)
      then Some ([p] :: take 10 segs)
      else None
  | _ => None
  end.
Proof.
  intros Hd. unfold split_cpe.
  rewrite strip_app. cbn [mbind option_bind].
  rewrite bool_decide_eq_false_2 by done.
  rewrite strip_app. cbn [mbind option_bind].
  destruct rest as [|p s4]; [done|].
  destruct (decide (p = ":")) as [->|Hp].
  { rewrite bool_decide_eq_false_2.
    - cbn [split_colon]. by rewrite bool_decide_eq_true_2 by done.
    - intros H. apply (bool_decide_pack _) in H. by vm_compute in H. }
  cbn [split_colon]. rewrite (bool_decide_eq_false_2 (p = ":")) by done.
  destruct s4 as [|c s].
  { cbn [split_colon fields length].
    destruct (bool_decide (p ∈ py "aho")); reflexivity. }
  destruct (decide (c = ":")) as [->|Hc].
  - cbn [split_colon]. rewrite (bool_decide_eq_true_2 (":" = ":")) by done.
    cbv beta iota. rewrite fields_split_colon_take.
    destruct (bool_decide (p ∈ py "aho")); [|reflexivity]. cbn [andb].
    by destruct (10 <=? length (split_colon s)).
  - rewrite (split_colon_segment (c :: s)). cbn [segment fields].
    rewrite !(bool_decide_eq_false_2 (c = ":")) by done.
    cbv beta iota.
    by destruct (bool_decide (p ∈ py "aho")).
Qed.

(** X12.  After a prefix [cpe:2], any character but a newline, [3:], the
    pattern matches exactly when the rest of the string, cut at its colons,
    has at least eleven segments of which the first is one of the letters
    [a], [h], [o] alone; the eleven groups are then the first eleven
    segments. *)
Theorem re_match_segments d rest :
  d ≠ newline →
  re_match 11 cpe_2_3_formatted_pattern (py "cpe:2" ++ d :: py "3:" ++ rest) =
  match split_colon rest with
  | [p] :: segs =>
      if bool_decide (p ∈ py "aho") && (10 <=? length segs)
      then Some (Some <$> [p] :: take 10 segs)
      else None
  | _ => None
  end.
Proof.
  intros Hd. rewrite re_match_split_cpe, split_cpe_prefix by done.
  destruct (split_colon rest) as [|[|p [|? ?]] segs]; try done.
  by destruct (bool_decide (p ∈ py "aho") && (10 <=? length segs)).
Qed.

Lemma re_match_segments_witness :
  re_match 11 cpe_2_3_formatted_pattern
    (py "cpe:2" ++ "." :: py "3:" ++ py "o:apple:ios:15.1-beta:*:.:*:*:*:*:-:x:y") =
  Some (Some <$> [ py "o"; py "apple"; py "ios"; py "15.1-beta"; py "*";
                   py "."; py "*"; py "*"; py "*"; py "*"; py "-" ]).
Proof.
  rewrite re_match_segments by discriminate. reflexivity.
Defined.

Lemma unbind_values_Forall2 fs vs :
  unbind_values fs = Ok vs ↔
  Forall2 (λ f v, unbind_value f = Ok v) fs vs.
Proof.
  revert vs. induction fs as [|f fs IH]; intros vs; simpl.
  - split; [intros [= <-]; constructor | by intros ->%Forall2_nil_inv_l].
  - split.
    + destruct (unbind_value f) as [v|] eqn:Ef; [|done]. simpl.
      destruct (unbind_values fs) as [vs'|] eqn:Efs; [|done]. simpl.
      intros [= <-]. constructor; [done|]. by apply IH.
    + intros (v & vs' & Hv & Hvs & ->)%Forall2_cons_inv_l.
      rewrite Hv. simpl. apply IH in Hvs. by rewrite Hvs.
Qed.

Lemma unbind_value_part p : p ∈ py "aho" → unbind_value [p] = Ok [p].
Proof.
  intros Hp. apply (bool_decide_pack _) in Hp.
  destruct p as [[] [] [] [] [] [] [] []]; try by vm_compute in Hp.
  all: reflexivity.
Qed.

(** X13.  With such a prefix, [process_cpe_str] returns a record exactly
    when the first segment of the rest is a part indicator, ten more
    segments follow, and [unbind_value] accepts each of these ten; the record
    binds [part] to the indicator and the other ten names, in order, to
    what [unbind_value] returns for the ten segments. *)
Theorem process_cpe_str_record_of_segments d rest r :
  d ≠ newline →
  process_cpe_str (py "cpe:2" ++ d :: py "3:" ++ rest) = Ok r ↔
  ∃ p segs vals,
    split_colon rest = [p] :: segs
    ∧ p ∈ py "aho"
    ∧ 10 ≤ length segs
    ∧ Forall2 (λ seg v, unbind_value seg = Ok v) (take 10 segs) vals
    ∧ r = zip attribute_names (Some <$> [p] :: vals).
Proof.
  intros Hd. rewrite process_cpe_str_eq, split_cpe_prefix by done. split.
  - destruct (split_colon rest) as [|[|p [|? ?]] segs]; try done.
    case_bool_decide as Hp; [|done].
    destruct (10 <=? length segs) eqn:Hlen; [|done].
    apply Nat.leb_le in Hlen. cbn [andb unbind_values].
    rewrite (unbind_value_part p Hp). cbn [mbind res_bind].
    destruct (unbind_values (take 10 segs)) as [vals|] eqn:E; [|done].
    cbn [mbind res_bind]. intros [= <-].
    exists p, segs, vals. by rewrite <-unbind_values_Forall2.
  - intros (p & segs & vals & -> & Hp & Hlen & Hvals & ->). cbv beta iota.
    apply unbind_values_Forall2 in Hvals. unfold str in *.
    rewrite bool_decide_eq_true_2 by done.
    cbn [andb].
    match goal with
    | |- context [10 <=? ?n] =>
        destruct (10 <=? n) eqn:E;
          [|apply Nat.leb_gt in E; unfold str in *; lia]
    end.
    cbn [unbind_values].
    rewrite (unbind_value_part p Hp). cbn [mbind res_bind].
    by rewrite Hvals.
Qed.

Lemma process_cpe_str_record_of_segments_witness :
  process_cpe_str
    (py "cpe:2" ++ "." :: py "3:" ++ py "a:mozilla:firefox:esr-78.16.0::*:-:*:*:*:*") =
  Ok [ item "part" "a"; item "vendor" "mozilla"; item "product" "firefox";
       item "version" "esr\-78\.16\.0"; (py "update", Some []);
       item "edition" "ANY";
       item "language" "NA"; item "sw_edition" "ANY"; item "target_sw" "ANY";
       item "target_hw" "ANY"; item "other" "ANY" ].
Proof.
  apply (proj2 (process_cpe_str_record_of_segments "." _ _ ltac:(discriminate))).
  exists "a",
    [ py "mozilla"; py "firefox"; py "esr-78.16.0"; []; py "*"; py "-";
      py "*"; py "*"; py "*"; py "*" ],
    [ py "mozilla"; py "firefox"; py "esr\-78\.16\.0"; []; py "ANY"; py "NA";
      py "ANY"; py "ANY"; py "ANY"; py "ANY" ].
  split; [reflexivity|]. split; [apply (bool_decide_unpack _); exact I|].
  split; [simpl; lia|]. split; [|reflexivity].
  repeat constructor.
Defined.

(** X14.  The character between [cpe:2] and [3:] is read and not compared:
    whichever it is, a newline apart, the result is the same. *)
Theorem process_cpe_str_sixth_character d d' rest :
  d ≠ newline → d' ≠ newline →
  process_cpe_str (py "cpe:2" ++ d :: rest) =
  process_cpe_str (py "cpe:2" ++ d' :: rest).
Proof.
  intros Hd Hd'. rewrite !process_cpe_str_eq. unfold split_cpe.
  rewrite !strip_app. cbn [mbind option_bind].
  by rewrite !bool_decide_eq_false_2 by done.
Qed.

Lemma process_cpe_str_sixth_character_witness :
  process_cpe_str (py "cpe:2" ++ "." :: py "3:a:b:c:d:e:f:g:h:i:j:k") =
  process_cpe_str (py "cpe:2" ++ "/" :: py "3:a:b:c:d:e:f:g:h:i:j:k").
Proof.
  apply process_cpe_str_sixth_character; discriminate.
Defined.

(** * Properties of [main] *)

Lemma json_escape_char_printable c :
  printable c = true →
  json_escape_char c = if bool_decide (c = "\") then py "\\" else [c].
Proof.
  intros H. unfold json_escape_char.
  case_bool_decide; [done|].
  destruct c as [[] [] [] [] [] [] [] []]; try discriminate H; try done.
Qed.

Lemma doubled_app s t : doubled (s ++ t) = doubled s ++ doubled t.
Proof. unfold doubled. by rewrite fmap_app, concat_app. Qed.

Lemma doubled_join sep l :
  doubled (join sep l) = join (doubled sep) (doubled <$> l).
Proof.
  induction l as [|x [|y l] IH]; [done| done |].
  change (join sep (x :: y :: l)) with (x ++ sep ++ join sep (y :: l)).
  rewrite !doubled_app, IH. done.
Qed.

Lemma json_escape_doubled s :
  Forall (λ c, printable c = true) s →
  concat (json_escape_char <$> s) = doubled s.
Proof.
  induction 1 as [|c s Hc _ IH]; [done|].
  unfold doubled. cbn [fmap list_fmap concat].
  rewrite (json_escape_char_printable c Hc). f_equal. exact IH.
Qed.

Lemma doubled_identity s : doubled (concat ((λ c, [c]) <$> s)) = doubled s.
Proof. f_equal. induction s as [|c s IH]; [done|]. simpl. by f_equal. Qed.

Lemma json_dumps_doubled d :
  printable_dict d → json_dumps d = doubled (layout d).
Proof.
  unfold json_dumps, layout, dumps_with. intros Hd.
  destruct d as [|kv d]; [done|].
  rewrite !doubled_app. f_equal.
  change (doubled (newline :: py "  " ++ ?t))
    with (newline :: py "  " ++ doubled t).
  do 3 f_equal.
  rewrite doubled_app. f_equal.
  rewrite doubled_join. f_equal.
  rewrite <-list_fmap_compose.
  apply Forall_fmap_ext_1. eapply Forall_impl; [exact Hd|].
  intros [k v] [Hk Hv]. cbn [compose fst snd] in *.
  rewrite !doubled_app.
  change (doubled (quote :: ?t)) with (quote :: doubled t).
  rewrite doubled_app, doubled_identity, (json_escape_doubled k Hk).
  do 3 f_equal.
  destruct v as [v|]; [|done].
  change (doubled (quote :: ?t)) with (quote :: doubled t).
  by rewrite doubled_app, doubled_identity, (json_escape_doubled v (Hv v eq_refl)).
Qed.

Lemma str_replace_from_marker t :
  str_replace_from (py "\\") (py "\") 0 ("\" :: "\" :: t) =
  "\" :: str_replace_from (py "\\") (py "\") 0 t.
Proof. done. Qed.

Lemma str_replace_from_other c t :
  c ≠ "\" →
  str_replace_from (py "\\") (py "\") 0 (c :: t) =
  c :: str_replace_from (py "\\") (py "\") 0 t.
Proof.
  intros Hc. change (py "\\") with ["\"; "\"].
  cbn [str_replace_from startswith]. by rewrite bool_decide_eq_false_2.
Qed.

(** Replacing two escape markers by one undoes the doubling. *)
Lemma str_replace_doubled s :
  str_replace (py "\\") (py "\") (doubled s) = s.
Proof.
  unfold str_replace. induction s as [|c s IH]; [done|].
  unfold doubled. cbn [fmap list_fmap concat]. fold (doubled s).
  case_bool_decide as Hc.
  - subst c. change (py "\\" ++ doubled s) with ("\" :: "\" :: doubled s).
    by rewrite str_replace_from_marker, IH.
  - cbn [app]. by rewrite str_replace_from_other, IH.
Qed.

Lemma elem_of_segment s c : c ∈ segment s → c ∈ s.
Proof.
  induction s as [|c' s IH]; simpl; [done|].
  case_bool_decide; [by intros ?%elem_of_nil|].
  rewrite !elem_of_cons. intros [->|Hin]; auto.
Qed.

Lemma elem_of_after_segment s c : c ∈ after_segment s → c ∈ s.
Proof.
  induction s as [|c' s IH]; simpl; [done|].
  case_bool_decide; [done|]. rewrite elem_of_cons. auto.
Qed.

Lemma fields_characters n s fs f c :
  fields n s = Some fs → f ∈ fs → c ∈ f → c ∈ s.
Proof.
  revert s fs. induction n as [|n IH]; intros s fs; simpl.
  - intros [= <-]. by intros ?%elem_of_nil.
  - destruct s as [|c' s]; [done|]. case_bool_decide; [|done].
    destruct (fields n (after_segment s)) as [fs'|] eqn:E; [|done].
    intros [= <-]. rewrite !elem_of_cons. intros [->|Hf] Hc; right.
    + by apply elem_of_segment.
    + by eapply elem_of_after_segment, IH.
Qed.

Lemma split_cpe_characters s fs f c :
  split_cpe s = Some fs → f ∈ fs → c ∈ f → c ∈ s.
Proof.
  unfold split_cpe.
  destruct (strip (py "cpe:2") s) as [[|d s2]|] eqn:E1; [done| |done].
  apply strip_Some in E1 as ->. cbn [mbind option_bind].
  case_bool_decide; [done|].
  destruct (strip (py "3:") s2) as [[|p s4]|] eqn:E2; [done| |done].
  apply strip_Some in E2 as ->. cbn [mbind option_bind].
  case_bool_decide; [|done].
  destruct (fields 10 s4) as [fs'|] eqn:E; [|done].
  intros [= <-]. rewrite elem_of_cons. intros [->|Hf] Hc.
  - apply list_elem_of_singleton in Hc as ->.
    rewrite !elem_of_app, !elem_of_cons, !elem_of_app, !elem_of_cons. auto 10.
  - pose proof (fields_characters _ _ _ _ _ E Hf Hc).
    rewrite !elem_of_app, !elem_of_cons, !elem_of_app, !elem_of_cons. auto 10.
Qed.

Lemma unbind_value_printable value v :
  Forall (λ c, printable c = true) value →
  unbind_value value = Ok v →
  Forall (λ c, printable c = true) v.
Proof.
  intros Hvalue. unfold unbind_value.
  repeat case_bool_decide.
  - intros [= <-]. by repeat constructor.
  - intros [= <-]. by repeat constructor.
  - intros Hv. apply Forall_forall. intros c Hc.
    destruct (add_quoting_characters_aux _ _ _ Hv Hc) as [->|Hin]; [done|].
    by eapply Forall_forall in Hvalue.
Qed.

Lemma unbind_values_printable fs vs :
  Forall (Forall (λ c, printable c = true)) fs →
  unbind_values fs = Ok vs →
  Forall (Forall (λ c, printable c = true)) vs.
Proof.
  intros Hfs Hvs%unbind_values_Forall2.
  induction Hvs as [|f v fs vs Hv _ IH]; [done|].
  apply Forall_cons in Hfs as [Hf Hfs].
  constructor; [by eapply unbind_value_printable | by apply IH].
Qed.

Lemma process_cpe_str_printable s r :
  Forall (λ c, printable c = true) s →
  process_cpe_str s = Ok r →
  printable_dict r.
Proof.
  intros Hs. rewrite process_cpe_str_eq.
  destruct (split_cpe s) as [fs|] eqn:E; [|done].
  destruct (unbind_values fs) as [vs|] eqn:Evs; [|done].
  cbn [mbind res_bind]. intros [= <-].
  assert (Hvs : Forall (Forall (λ c, printable c = true)) vs).
  { eapply unbind_values_printable; [|done].
    apply Forall_forall. intros f Hf. apply Forall_forall. intros c Hc.
    eapply Forall_forall in Hs; [done|]. by eapply split_cpe_characters. }
  apply unbind_values_length in Evs.
  rewrite (split_cpe_length _ _ E) in Evs.
  do 11 (destruct vs as [|? vs]; [done|]). destruct vs; [|done].
  unfold printable_dict.
  repeat (apply Forall_cons in Hvs as [? Hvs]).
  repeat (constructor; [split; [by repeat constructor | by intros ? [= <-]]|]).
  constructor.
Qed.

(** X15.  For a CPE string of printable ASCII characters without a double
    quote that [process_cpe_str] accepts, [main] prints the record as
    [json.dumps] lays it out, every value between its double quotes exactly
    as the record has it, followed by a newline: replacing two escape
    markers by one takes back what [json.dumps] added. *)
Theorem main_prints_layout argv cpe_string r :
  argv !! 1 = Some cpe_string →
  Forall (λ c, printable c = true) cpe_string →
  process_cpe_str cpe_string = Ok r →
  main argv = Printed (layout r ++ [newline]).
Proof.
  intros Hargv Hs Hr. unfold main. unfold str in *.
  destruct (length argv <? 2) eqn:Hlen.
  { apply Nat.ltb_lt in Hlen. apply lookup_lt_Some in Hargv. lia. }
  rewrite Hargv, Hr.
  rewrite json_dumps_doubled by by eapply process_cpe_str_printable.
  by rewrite str_replace_doubled.
Qed.

Lemma main_prints_layout_witness :
  main [ py "cpe_parser.py";
         py "cpe:2.3:o:IBM/Red_Hat:RHEL:8.4.2-1:*:*:*:*:*:*:*" ] =
  Printed
    (layout [ item "part" "o"; item "vendor" "IBM\/Red_Hat";
              item "product" "RHEL"; item "version" "8\.4\.2\-1";
              item "update" "ANY"; item "edition" "ANY";
              item "language" "ANY"; item "sw_edition" "ANY";
              item "target_sw" "ANY"; item "target_hw" "ANY";
              item "other" "ANY" ] ++ [newline]).
Proof.
  apply (main_prints_layout _ (py "cpe:2.3:o:IBM/Red_Hat:RHEL:8.4.2-1:*:*:*:*:*:*:*")).
  - reflexivity.
  - apply (bool_decide_unpack _). vm_compute. exact I.
  - reflexivity.
Defined.

(** X17.  [main] raises its own error exactly when it is given fewer than
    two arguments; any other exception that leaves it is the invalid-format
    error or a placement error of [process_cpe_str], and never an index
    error. *)
Theorem main_outcomes argv :
  (main argv = NoArgumentSupplied ↔ length argv < 2)
  ∧ ∀ e, main argv = Uncaught e →
      e = MalformedInput
      ∨ e = InvalidWildcardPlacement
      ∨ e = InvalidSingleCharWildcardPlacement.
Proof.
  unfold main. unfold str in *.
  destruct (length argv <? 2) eqn:Hlen.
  - apply Nat.ltb_lt in Hlen. split; [done|]. done.
  - apply Nat.ltb_ge in Hlen.
    destruct (lookup_lt_is_Some_2 argv 1 ltac:(lia)) as [s ->].
    destruct (process_cpe_str s) as [r|e'] eqn:E.
    + split; [split; [done | lia] | done].
    + split; [split; [done | lia]|].
      intros e [= <-]. by eapply process_cpe_str_errors_aux.
Qed.

Lemma main_outcomes_witness :
  MalformedInput = MalformedInput
  ∨ MalformedInput = InvalidWildcardPlacement
  ∨ MalformedInput = InvalidSingleCharWildcardPlacement.
Proof.
  apply (proj2 (main_outcomes [py "cpe_parser.py"; py "cpe::h:-:x"])).
  reflexivity.
Defined.

(** * The length of what the encoder returns *)

Lemma loop_body_growth string st st' :
  idx st < length string →
  loop_body string st = Ok st' →
  let di := idx st' - idx st in
  let dr := length (result st') - length (result st) in
  length (result st) ≤ length (result st') ∧ idx st < idx st'
  ∧ (di = 1 ∧ 1 ≤ dr ≤ 2
     ∨ di = 2 ∧ idx st + 2 ≤ length string ∧ 2 ≤ dr ≤ 3
     ∨ di = 2 ∧ idx st + 1 = length string ∧ 1 ≤ dr ≤ 3).
Proof.
  intros Hlt. unfold loop_body, mbind, res_bind.
  destruct (getitem string (idx st)) as [char|]; [|done].
  repeat case_match; intros; simplify_eq/=;
    unfold slice; rewrite ?length_app, ?length_take, ?length_drop; simpl; lia.
Qed.

Lemma reaches_lengths string st :
  reaches string st →
  length (result st) ≤ 2 * idx st
  ∧ idx st ≤ length string + 1
  ∧ (idx st ≤ length string → idx st ≤ length (result st))
  ∧ (length string < idx st →
       length string ≤ length (result st) ≤ 2 * length string + 1).
Proof.
  induction 1 as [|st st' _ IH Hlt Hbody]; [simpl; lia|].
  pose proof (loop_body_growth _ _ _ Hlt Hbody) as Hg. simpl in Hg. lia.
Qed.

Lemma while_loop_final string r :
  ∀ n st, length string - idx st = n →
    reaches string st →
    while_loop string st = Ok r →
    ∃ st', reaches string st' ∧ length string ≤ idx st' ∧ result st' = r.
Proof.
  induction n as [n IH] using lt_wf_ind. intros st Hn Hst.
  rewrite while_loop_eq.
  destruct (idx st <? length string) eqn:Hlt.
  - apply Nat.ltb_lt in Hlt.
    destruct (loop_body string st) as [st'|] eqn:Hbody; [|done]. simpl.
    pose proof (loop_body_advances _ _ _ Hbody).
    apply (IH (length string - idx st')); [lia | done |].
    by eapply reaches_next.
  - apply Nat.ltb_ge in Hlt. intros [= <-]. by exists st.
Qed.

(** X16.  What [add_quoting] returns is at least as long as the component
    and at most twice as long and one character more. *)
Theorem add_quoting_length string r :
  add_quoting string = Ok r →
  length string ≤ length r ≤ 2 * length string + 1.
Proof.
  intros Hr.
  destruct (while_loop_final string r _ init eq_refl (reaches_init _) Hr)
    as (st & Hst & Hidx & <-).
  pose proof (reaches_lengths _ _ Hst). lia.
Qed.

Lemma add_quoting_length_witness :
  length (py "?") ≤ length (py "?\?") ≤ 2 * length (py "?") + 1.
Proof. apply add_quoting_length. reflexivity. Defined.

(** * Asterisks at the ends *)

Lemma while_loop_plain_run (pre post suf out : str) b :
  Forall (λ c, ¬ special c) post →
  while_loop (pre ++ post ++ suf) (State out (length pre) b) =
  while_loop (pre ++ post ++ suf)
    (State (out ++ concat (escape_char <$> post))
           (length pre + length post)
           (if post is [] then b else true)).
Proof.
  revert pre out b. induction post as [|c post IH]; intros pre out b Hpost.
  - simpl. by rewrite app_nil_r, Nat.add_0_r.
  - apply Forall_cons in Hpost as [Hc Hpost].
    rewrite while_loop_eq. cbn [idx].
    rewrite (proj2 (Nat.ltb_lt _ _)) by (rewrite !length_app; simpl; lia).
    rewrite (loop_body_plain _ _ c);
      [|by apply (list_lookup_middle pre (post ++ suf))|done].
    cbn [mbind res_bind result idx].
    replace (length pre + 1) with (length (pre ++ [c]))
      by (rewrite length_app; simpl; lia).
    change ((c :: post) ++ suf) with (c :: post ++ suf).
    rewrite (cons_middle c pre (post ++ suf)), (assoc_L (++)).
    rewrite IH by done. f_equal.
    rewrite length_app. cbn [length fmap list_fmap concat].
    rewrite <-!(assoc_L (++)).
    replace (length pre + 1 + length post) with (length pre + S (length post))
      by lia.
    by destruct post.
Qed.

Lemma loop_body_asterisk string st :
  string !! idx st = Some "*" →
  idx st = 0 ∨ idx st = length string - 1 →
  loop_body string st =
    Ok (State (result st ++ ["*"]) (idx st + 1) true).
Proof.
  intros Hc Hpos. unfold loop_body.
  rewrite (getitem_lookup _ _ _ Hc). simpl.
  destruct Hpos as [-> | ->]; by rewrite ?Nat.eqb_refl, ?orb_true_r.
Qed.

(** X18.  A component that has no escape marker, asterisk or question mark
    but for an asterisk in front, an asterisk at the end, or both, is
    accepted: the asterisks stay as they are, and what is between them is
    encoded as it is without them. *)
Theorem add_quoting_asterisks (lead trail : bool) body :
  Forall (λ c, c ≠ "\" ∧ c ≠ "*" ∧ c ≠ "?") body →
  let a : str := if lead then ["*"] else [] in
  let z : str := if trail then ["*"] else [] in
  add_quoting (a ++ body ++ z) =
  Ok (a ++ concat (escape_char <$> body) ++ z).
Proof.
  intros Hbody a z.
  assert (Hplain : Forall (λ c, ¬ special c) body).
  { eapply Forall_impl; [done|]. intros c (H1 & H2 & H3) [?|[?|?]]; done. }
  assert (Hrun : ∀ out b,
    while_loop (a ++ body ++ z) (State out (length a) b) =
    Ok (out ++ concat (escape_char <$> body) ++ z)).
  { intros out b. rewrite while_loop_plain_run by done.
    destruct trail; subst z.
    - rewrite while_loop_eq. cbn [idx].
      rewrite (proj2 (Nat.ltb_lt _ _)) by (rewrite !length_app; simpl; lia).
      rewrite loop_body_asterisk; cbn [idx result].
      + cbn [mbind res_bind].
        rewrite while_loop_past_end by (simpl; rewrite !length_app; simpl; lia).
        simpl. by rewrite <-(assoc_L (++)).
      + rewrite (assoc_L (++)), <-length_app. by apply list_lookup_middle.
      + right. rewrite !length_app. simpl. lia.
    - rewrite while_loop_past_end by (simpl; rewrite !length_app; simpl; lia).
      simpl. by rewrite !app_nil_r. }
  destruct lead; subst a.
  - unfold add_quoting. rewrite while_loop_eq.
    rewrite (proj2 (Nat.ltb_lt _ _)) by (simpl; lia).
    rewrite loop_body_asterisk; [|done|by left].
    cbn [mbind res_bind]. exact (Hrun ["*"] true).
  - exact (Hrun [] false).
Qed.

Lemma add_quoting_asterisks_witness :
  add_quoting (py "*" ++ py "foo.bar" ++ py "*") = Ok (py "*foo\.bar*").
Proof.
  apply (add_quoting_asterisks true true (py "foo.bar")).
  repeat constructor; discriminate.
Defined.
